(** * The retrieval core of the MYTUTS study assistant (rag_engine.py)

    A shallow embedding of [RAGEngine]: text cleaning, sentence splitting
    and chunking ([create_chunks]), ingestion ([add_document]), lexical
    search ([search_relevant_content]), statistics ([get_document_stats]),
    answer composition ([generate_answer]) and quiz generation
    ([generate_study_quiz]), with the loop of [app.py] that hands the
    uploaded files to [add_document].

    Conventions.
    - Text is [string]; a character is one of the code points U+0000 to
      U+00FF and is classified the way Python classifies it ([str.isspace],
      the [\s] and [\w] classes of [re] on [str] patterns, [str.lower]).
    - Python [int] parameters are [Z]; lengths and counts are [nat].
    - Python [float] is the binary64 type [float] of the kernel.
    - A Python [set] of words is a [gset string].
    - [self.documents] is a [dict]: an association list in insertion order.
    - A raised [Exception] is a value of [exn]; fallible methods return a
      [result]; the call of the generation service is a node of an [io]
      tree.
    - [uuid.uuid4()] is an argument of [add_document].
    - The [print] calls only write to the console and are left out. *)

From Stdlib Require Import ZArith Lia Floats Ascii String DecimalString.
From stdpp Require Import base list strings gmap sorting.

#[local] Set Warnings "-inexact-float".
#[local] Open Scope Z_scope.
#[local] Open Scope nat_scope.

(** ** Characters *)

Module Char.

Definition code (c : ascii) : nat := Ascii.nat_of_ascii c.

Definition between (lo hi : nat) (c : ascii) : bool :=
  (lo <=? code c) && (code c <=? hi).

(** [str.isspace], also the class [\s]. *)
Definition is_space (c : ascii) : bool :=
  between 9 13 c || between 28 32 c
  || (code c =? 133) || (code c =? 160).

(** The class [\w]: alphanumeric ([str.isalnum]) or underscore. *)
Definition is_word (c : ascii) : bool :=
  between 48 57 c || between 65 90 c || (code c =? 95)
  || between 97 122 c
  || (code c =? 170) || between 178 179 c || (code c =? 181)
  || between 185 186 c || between 188 190 c
  || between 192 214 c || between 216 246 c || between 248 255 c.

(** One character of [str.lower]. *)
Definition lower (c : ascii) : ascii :=
  if between 65 90 c || between 192 214 c || between 216 222 c
  then Ascii.ascii_of_nat (code c + 32)
  else c.

(** The class [[.!?]] of the sentence pattern. *)
Definition is_terminator (c : ascii) : bool :=
  match c with
  | "."%char | "!"%char | "?"%char => true
  | _ => false
  end.

(** The punctuation kept by [preprocess_text]: [.,;:!?()-'] and the
    double quote. *)
Definition is_kept_punct (c : ascii) : bool :=
  match c with
  | "."%char | ","%char | ";"%char | ":"%char | "!"%char | "?"%char
  | "("%char | ")"%char | "-"%char | "'"%char => true
  | _ => code c =? 34
  end.

Definition space : ascii := " "%char.
Definition newline : ascii := Ascii.ascii_of_nat 10.

End Char.

(** ** Strings *)

Module Str.

Definition is_empty (s : string) : bool :=
  match s with
  | EmptyString => true
  | String _ _ => false
  end.

Fixpoint map (f : ascii → ascii) (s : string) : string :=
  match s with
  | EmptyString => EmptyString
  | String c r => String (f c) (map f r)
  end.

(** [s.lower()] *)
Definition lower (s : string) : string := map Char.lower s.

(** [s.lstrip()] *)
Fixpoint lstrip (s : string) : string :=
  match s with
  | EmptyString => EmptyString
  | String c r => if Char.is_space c then lstrip r else s
  end.

(** [s.rstrip()] *)
Fixpoint rstrip (s : string) : string :=
  match s with
  | EmptyString => EmptyString
  | String c r =>
      let r' := rstrip r in
      if Char.is_space c && is_empty r' then EmptyString else String c r'
  end.

(** [s.strip()] *)
Definition strip (s : string) : string := rstrip (lstrip s).

(** [sep.join(parts)] *)
Fixpoint join (sep : string) (parts : list string) : string :=
  match parts with
  | [] => EmptyString
  | [p] => p
  | p :: rest => p +:+ sep +:+ join sep rest
  end.

(** [needle in hay] *)
Fixpoint contains (hay needle : string) : bool :=
  String.prefix needle hay
  || match hay with
     | EmptyString => false
     | String _ r => contains r needle
     end.

(** [s[:n]] for [0 <= n] *)
Fixpoint take (n : nat) (s : string) : string :=
  match n, s with
  | S k, String c r => String c (take k r)
  | _, _ => EmptyString
  end.

(** [str(n)] for a non-negative [int] *)
Definition of_nat (n : nat) : string := NilZero.string_of_uint (Nat.to_uint n).

Definition nl : string := String Char.newline EmptyString.

End Str.

(** ** Regular-expression passes of the chunker *)

Module Re.

(** [re.sub(r'\s+', ' ', text)]: every maximal run of whitespace
    becomes one space.  [in_run] tells that the previous character was
    whitespace, so the current run has already been written. *)
Fixpoint collapse_whitespace (in_run : bool) (s : string) : string :=
  match s with
  | EmptyString => EmptyString
  | String c r =>
      if Char.is_space c
      then if in_run then collapse_whitespace true r
           else String Char.space (collapse_whitespace true r)
      else String c (collapse_whitespace false r)
  end.

(** The second [re.sub] of [preprocess_text]: every character outside
    the class of word characters, whitespace and the kept punctuation
    becomes a space. *)
Definition keep (c : ascii) : bool :=
  Char.is_word c || Char.is_space c || Char.is_kept_punct c.

Definition blank_unusual (s : string) : string :=
  Str.map (λ c, if keep c then c else Char.space) s.

(** [re.sub(r' +', ' ', text)] *)
Fixpoint collapse_spaces (in_run : bool) (s : string) : string :=
  match s with
  | EmptyString => EmptyString
  | String c r =>
      if Ascii.eqb c Char.space
      then if in_run then collapse_spaces true r
           else String Char.space (collapse_spaces true r)
      else String c (collapse_spaces false r)
  end.

(** A character put in front of the first piece. *)
Definition cons_head (c : ascii) (pieces : list string) : list string :=
  match pieces with
  | [] => [String c EmptyString]
  | p :: ps => String c p :: ps
  end.

(** [re.split(r'(?<=[.!?])\s+', text)].  A separator is a maximal run of
    whitespace that directly follows a terminator.  The result lists the
    pieces of [s], its head being the rest of the piece that is open when
    [s] starts.  [after_term] tells that the character before [s] was a
    terminator, [in_sep] that a separator is being skipped. *)
Fixpoint split_go (after_term in_sep : bool) (s : string) : list string :=
  match s with
  | EmptyString => [EmptyString]
  | String c r =>
      if Char.is_space c && (after_term || in_sep)
      then if in_sep then split_go false true r
           else EmptyString :: split_go false true r
      else cons_head c (split_go (Char.is_terminator c) false r)
  end.

Definition split_sentences (s : string) : list string :=
  split_go false false s.

(** [re.findall(r'\b\w+\b', text)]: the maximal runs of word
    characters, in order. *)
Fixpoint findall_go (word : list ascii) (s : string) : list string :=
  match s with
  | EmptyString =>
      match word with
      | [] => []
      | _ => [string_of_list_ascii (rev word)]
      end
  | String c r =>
      if Char.is_word c then findall_go (c :: word) r
      else match word with
           | [] => findall_go [] r
           | _ => string_of_list_ascii (rev word) :: findall_go [] r
           end
  end.

Definition findall_words (s : string) : list string := findall_go [] s.

End Re.

(** ** The chunker *)

(** [preprocess_text] *)
Definition preprocess_text (text : string) : string :=
  let text := Re.collapse_whitespace false text in
  let text := Re.blank_unusual text in
  let text := Re.collapse_spaces false text in
  Str.strip text.

(** A chunk dictionary of [create_chunks]: the keys ['text'], ['length']
    and ['sentence_count']. *)
Record chunk := Chunk {
  chunk_text : string;
  chunk_length : nat;
  chunk_sentence_count : nat
}.

(** The local variables of the loop of [create_chunks]. *)
Record chunker := Chunker {
  chunks_out : list chunk;
  current_chunk : string;
  sentence_buffer : list string
}.

Definition chunker_init : chunker := Chunker [] EmptyString [].

(** The dictionary appended when the current chunk is saved. *)
Definition close_chunk (st : chunker) : chunk :=
  Chunk (Str.strip (current_chunk st))
        (String.length (current_chunk st))
        (length (sentence_buffer st)).

(** [projected_length > chunk_size and current_chunk] *)
Definition overflows (chunk_size : Z) (st : chunker) (sentence : string) : bool :=
  let projected_length :=
    String.length (current_chunk st) + String.length sentence + 1 in
  (chunk_size <? Z.of_nat projected_length)%Z
  && negb (Str.is_empty (current_chunk st)).

(** [sentence_buffer[-2:]] *)
Definition last_two (buffer : list string) : list string :=
  drop (length buffer - 2) buffer.

(** One iteration of the loop over the sentences. *)
Definition chunk_step (chunk_size : Z) (st : chunker) (sentence : string)
    : chunker :=
  if overflows chunk_size st sentence then
    let chunks := chunks_out st ++ [close_chunk st] in
    if 2 <? length (sentence_buffer st) then
      let overlap_sentences := last_two (sentence_buffer st) in
      Chunker chunks
              (Str.join " " overlap_sentences +:+ " " +:+ sentence)
              (overlap_sentences ++ [sentence])
    else
      Chunker chunks sentence [sentence]
  else
    Chunker (chunks_out st)
            (if Str.is_empty (current_chunk st) then sentence
             else current_chunk st +:+ " " +:+ sentence)
            (sentence_buffer st ++ [sentence]).

(** The final chunk, added when the rest is not blank. *)
Definition chunker_finish (st : chunker) : list chunk :=
  if Str.is_empty (Str.strip (current_chunk st)) then chunks_out st
  else chunks_out st ++ [close_chunk st].

Definition chunk_loop (chunk_size : Z) (sentences : list string) : chunker :=
  foldl (chunk_step chunk_size) chunker_init sentences.

(** [create_chunks(text, chunk_size, overlap)].  The parameter [overlap]
    is accepted and never read. *)
Definition create_chunks (text : string) (chunk_size overlap : Z) : list chunk :=
  let processed_text := preprocess_text text in
  let sentences := Re.split_sentences processed_text in
  chunker_finish (chunk_loop chunk_size sentences).

Definition default_chunk_size : Z := 1000.
Definition default_overlap : Z := 100.

(** ** Exceptions and external collaborators *)

(** [Exception(message)]; [str(e)] is the message. *)
Inductive exn := Exception (message : string).

Inductive result (A : Type) :=
  | Ok (value : A)
  | Raise (e : exn).
Arguments Ok {A} value.
Arguments Raise {A} e.

(** What PyPDF2 makes of an uploaded file.  [page.extract_text()] returns
    the text of a page or raises; [PdfReader] itself (or reading the
    upload) may raise, with some message. *)
Inductive page :=
  | PageText (page_text : string)
  | PageError.

Inductive pdf_file :=
  | Pdf (pages : list page)
  | PdfUnreadable (message : string).

(** A computation that may call the text-generation service
    ([call_google_ai], one HTTP round trip) and goes on with the text it
    returned or the exception it raised. *)
Inductive io (A : Type) :=
  | Ret (value : A)
  | CallGoogleAI (prompt : string) (k : result string → io A).
Arguments Ret {A} value.
Arguments CallGoogleAI {A} prompt k.

(** Running a computation against a given service, with the prompts sent. *)
Fixpoint run_io {A} (service : string → result string) (m : io A)
    : A * list string :=
  match m with
  | Ret a => (a, [])
  | CallGoogleAI prompt k =>
      let '(a, sent) := run_io service (k (service prompt)) in
      (a, prompt :: sent)
  end.

(** ** The knowledge base *)

(** An entry of [self.chunks]. *)
Record chunk_data := ChunkData {
  cd_id : string;
  cd_text : string;
  cd_text_lower : string;
  cd_filename : string;
  cd_doc_id : string;
  cd_chunk_index : nat;
  cd_length : nat;
  cd_sentence_count : nat
}.

(** A value of [self.documents]. *)
Record document := Document {
  doc_filename : string;
  doc_chunks : nat;
  doc_total_chars : nat;
  doc_preview : string
}.

Record RAGEngine := Engine {
  documents : list (string * document);
  chunks : list chunk_data;
  api_key : string;
  api_url : string
}.

(** Dictionaries in insertion order. *)
Module Dict.

Fixpoint get {V} (d : list (string * V)) (key : string) : option V :=
  match d with
  | [] => None
  | (k, v) :: rest => if String.eqb k key then Some v else get rest key
  end.

(** [d[key] = value]: a key already present keeps its place. *)
Fixpoint set {V} (d : list (string * V)) (key : string) (value : V)
    : list (string * V) :=
  match d with
  | [] => [(key, value)]
  | (k, v) :: rest =>
      if String.eqb k key then (k, value) :: rest
      else (k, v) :: set rest key value
  end.

Definition values {V} (d : list (string * V)) : list V := map snd d.

End Dict.

(** [__init__]: the key comes from the environment. *)
Definition RAGEngine_init (GOOGLE_AI_API_KEY : option string) : result RAGEngine :=
  match GOOGLE_AI_API_KEY with
  | Some key =>
      if Str.is_empty key
      then Raise (Exception "GOOGLE_AI_API_KEY environment variable is required. Get your free key from https://aistudio.google.com/")
      else Ok (Engine [] [] key
                 ("https://generativelanguage.googleapis.com/v1beta/models/gemini-1.5-flash-latest:generateContent?key=" +:+ key))
  | None =>
      Raise (Exception "GOOGLE_AI_API_KEY environment variable is required. Get your free key from https://aistudio.google.com/")
  end.

(** ** Ingestion *)

Definition page_marker (page_num total_pages : nat) : string :=
  Str.nl +:+ "--- Page " +:+ Str.of_nat (page_num + 1) +:+ " of "
  +:+ Str.of_nat total_pages +:+ " ---" +:+ Str.nl.

(** The loop over [enumerate(pdf_reader.pages)]. *)
Fixpoint extract_pages (page_num total_pages : nat) (pages : list page)
    (extracted_text : string) : string :=
  match pages with
  | [] => extracted_text
  | p :: rest =>
      extract_pages (S page_num) total_pages rest
        match p with
        | PageText page_text =>
            if Str.is_empty (Str.strip page_text) then extracted_text
            else extracted_text +:+ page_marker page_num total_pages
                 +:+ Str.strip page_text +:+ Str.nl
        | PageError => extracted_text
        end
  end.

(** [extract_text_from_pdf] *)
Definition extract_text_from_pdf (file : pdf_file) : result string :=
  match file with
  | PdfUnreadable message =>
      Raise (Exception ("PDF text extraction failed: " +:+ message))
  | Pdf pages =>
      let extracted_text := extract_pages 0 (length pages) pages EmptyString in
      if Str.is_empty (Str.strip extracted_text)
      then Raise (Exception ("PDF text extraction failed: "
                             +:+ "No readable text found in the PDF file"))
      else Ok (Str.strip extracted_text)
  end.

(** The entry stored for chunk number [i] of a document. *)
Definition chunk_entry (doc_id filename : string) (i : nat) (c : chunk)
    : chunk_data :=
  ChunkData (doc_id +:+ "_" +:+ Str.of_nat i)
            (chunk_text c)
            (Str.lower (chunk_text c))
            filename doc_id i
            (chunk_length c)
            (chunk_sentence_count c).

(** The metadata stored for a document. *)
Definition document_entry (filename document_text : string) (n_chunks : nat)
    : document :=
  Document filename n_chunks (String.length document_text)
           (if 300 <? String.length document_text
            then Str.take 300 document_text +:+ "..."
            else document_text).

(** [add_document] after the extraction: chunking, one entry per chunk
    appended to [self.chunks], the metadata stored under [doc_id], and the
    value returned.  [doc_id] is the string [uuid.uuid4()] produced. *)
Definition add_document_text (self : RAGEngine)
    (document_text filename doc_id : string) : (string * nat) * RAGEngine :=
  let doc_chunks := create_chunks document_text default_chunk_size default_overlap in
  let chunks' := chunks self ++ imap (chunk_entry doc_id filename) doc_chunks in
  let documents' :=
    Dict.set (documents self) doc_id
             (document_entry filename document_text (length doc_chunks)) in
  ((doc_id, length doc_chunks),
   Engine documents' chunks' (api_key self) (api_url self)).

(** [add_document]: the value returned or the exception raised, and the
    engine afterwards. *)
Definition add_document (self : RAGEngine) (file : pdf_file)
    (filename doc_id : string) : result (string * nat) * RAGEngine :=
  match extract_text_from_pdf file with
  | Ok document_text =>
      let '(r, self') := add_document_text self document_text filename doc_id in
      (Ok r, self')
  | Raise (Exception message) =>
      (Raise (Exception ("Failed to add document " +:+ filename +:+ ": "
                         +:+ message)),
       self)
  end.

(** ** Search *)

(** An entry of the list returned by [search_relevant_content]. *)
Record scored_chunk := ScoredChunk {
  sc_text : string;
  sc_filename : string;
  similarity_score : float;
  sc_chunk_index : nat;
  matching_words : list string
}.

(** [set(re.findall(r'\b\w+\b', s))] *)
Definition word_set (s : string) : gset string :=
  list_to_set (Re.findall_words s).

(** The float of a length: the operands of [len(a) / len(b)].  Below
    [2^53] the conversion is exact and the quotient of the floats is the
    quotient Python computes for the two [int]s. *)
Definition float_of_nat (n : nat) : float :=
  PrimFloat.of_uint63 (Uint63.of_Z (Z.of_nat n)).

(** [min(x, y)] of Python: [y] when [y < x], else [x]. *)
Definition py_min (x y : float) : float :=
  if (y <? x)%float then y else x.

(** The body of the loop over [self.chunks]: the entry appended for a
    chunk that shares a word with the query, nothing otherwise.
    [list(common_words)] lists the set in an order Python leaves open;
    here it is the order of [elements]. *)
Definition score_chunk (query_lower : string) (query_words : gset string)
    (chunk : chunk_data) : option scored_chunk :=
  let chunk_words := word_set (cd_text_lower chunk) in
  let common_words := query_words ∩ chunk_words in
  if decide (common_words = ∅) then None
  else
    let base_score :=
      (float_of_nat (size common_words) / float_of_nat (size query_words))%float in
    let phrase_bonus :=
      if Str.contains (cd_text_lower chunk) query_lower then 0.3%float else 0%float in
    let sequence_bonus :=
      if 1 <? size common_words then 0.2%float else 0%float in
    let final_score := (base_score + phrase_bonus + sequence_bonus)%float in
    Some (ScoredChunk (cd_text chunk) (cd_filename chunk)
                      (py_min final_score 1.0%float)
                      (cd_chunk_index chunk)
                      (elements common_words)).

(** [l.sort(key=key, reverse=True)]: the sort is stable, entries whose
    keys are not ordered by [<] keep their order; an entry moves behind
    exactly the entries with a greater key. *)
Section Sort.
Context {A : Type} (key : A → float).

Fixpoint insert_desc (x : A) (l : list A) : list A :=
  match l with
  | [] => [x]
  | y :: l' =>
      if (key x <? key y)%float then y :: insert_desc x l' else x :: l
  end.

Definition sort_desc (l : list A) : list A := foldr insert_desc [] l.

End Sort.

(** [l[:n]] for an [int] [n]: a negative [n] counts from the end. *)
Definition slice_to {A} (n : Z) (l : list A) : list A :=
  if (0 <=? n)%Z then take (Z.to_nat n) l
  else take (length l - Z.to_nat (- n)) l.

(** [search_relevant_content].  No statement of the [try] block raises
    on entries that carry all their keys, so the handler is never
    entered. *)
Definition search_relevant_content (self : RAGEngine) (query : string)
    (max_results : Z) : list scored_chunk :=
  match chunks self with
  | [] => []
  | _ =>
      let query_lower := Str.lower query in
      let query_words := word_set query_lower in
      if decide (query_words = ∅) then []
      else
        let scored_chunks :=
          omap (score_chunk query_lower query_words) (chunks self) in
        slice_to max_results (sort_desc similarity_score scored_chunks)
  end.

(** ** Statistics *)

Record document_stats := DocumentStats {
  total_documents : nat;
  total_chunks : nat;
  stats_documents : list document
}.

(** [get_document_stats] *)
Definition get_document_stats (self : RAGEngine) : document_stats :=
  DocumentStats (length (documents self)) (length (chunks self))
                (Dict.values (documents self)).

(** ** Answer composition *)

Record source := Source {
  src_filename : string;
  confidence : float;
  matching_terms : list string
}.

(** The dictionary returned by [generate_answer]. *)
Record answer := Answer {
  answer_text : string;
  sources : list source;
  context_used : nat
}.

Definition no_information_answer : answer :=
  Answer "I couldn't find relevant information in your uploaded documents to answer this question. Please make sure you've uploaded materials that cover this topic, or try rephrasing your question with different keywords."
         [] 0.

Definition lines (l : list string) : string := Str.join Str.nl l.

Definition advanced_style : string := lines [
  "Provide a comprehensive, technical explanation that includes:";
  "- Detailed technical terminology and precise definitions";
  "- In-depth analysis of processes and mechanisms";
  "- Mathematical formulations, equations, or formulas when applicable";
  "- Advanced conceptual relationships and theoretical implications";
  "- References to established principles and theories" ].

Definition beginner_style : string := lines [
  "Provide a clear, beginner-friendly explanation that includes:";
  "- Simple, accessible language with helpful analogies";
  "- Step-by-step breakdown of complex concepts";
  "- Real-world examples and practical applications";
  "- Minimal technical jargon, with explanations when necessary";
  "- Easy-to-understand comparisons and metaphors" ].

(** The context block: one labelled part per retrieved chunk. *)
Definition context_part (i : nat) (c : scored_chunk) : string :=
  "[" +:+ "Source " +:+ Str.of_nat (i + 1) +:+ " from " +:+ sc_filename c
  +:+ "]" +:+ Str.nl +:+ sc_text c.

Definition build_prompt (context question style_instruction : string) : string :=
  lines [
    "You are MYTUTS, an intelligent AI study assistant helping students understand their course materials. Your role is to provide clear, accurate explanations based on the uploaded study documents.";
    EmptyString;
    "CONTEXT FROM STUDENT'S UPLOADED MATERIALS:";
    context;
    EmptyString;
    "STUDENT'S QUESTION: " +:+ question;
    EmptyString;
    "EXPLANATION APPROACH: " +:+ style_instruction;
    EmptyString;
    "RESPONSE GUIDELINES:";
    "1. Answer the question directly and comprehensively using the provided context";
    "2. Apply the specified complexity level consistently throughout your response";
    "3. Include specific details, examples, and explanations from the context";
    "4. Structure your response clearly with appropriate headings or organization";
    "5. If the context doesn't fully address the question, mention what additional information would be helpful";
    "6. Always ground your response in the provided materials";
    "7. Be engaging and educational while maintaining accuracy";
    EmptyString;
    "Please provide your detailed response:" ].

Definition source_of (c : scored_chunk) : source :=
  Source (sc_filename c) (similarity_score c) (take 5 (matching_words c)).

(** [generate_answer] *)
Definition generate_answer (self : RAGEngine)
    (question complexity_level : string) : io (result answer) :=
  let relevant_chunks := search_relevant_content self question 3 in
  match relevant_chunks with
  | [] => Ret (Ok no_information_answer)
  | _ =>
      let context :=
        Str.join (Str.nl +:+ Str.nl) (imap context_part relevant_chunks) in
      let style_instruction :=
        if Str.contains (Str.lower complexity_level) "advanced"
        then advanced_style else beginner_style in
      let prompt := build_prompt context question style_instruction in
      CallGoogleAI prompt (λ response,
        match response with
        | Ok ai_response =>
            Ret (Ok (Answer ai_response
                            (map source_of relevant_chunks)
                            (length relevant_chunks)))
        | Raise (Exception message) =>
            Ret (Raise (Exception ("Answer generation failed: " +:+ message)))
        end)
  end.

(** ** Method calls

    A call of one of the public methods on the engine: what it returns
    and the engine it leaves.  [search_relevant_content] and
    [get_document_stats] assign to no attribute of [self] and to no entry
    of [self.documents] or [self.chunks]. *)
Inductive method_call :=
  | CallAddDocument (file : pdf_file) (filename doc_id : string)
  | CallSearch (query : string) (max_results : Z)
  | CallStats.

Inductive returned :=
  | RetAddDocument (r : result (string * nat))
  | RetSearch (results : list scored_chunk)
  | RetStats (stats : document_stats).

Definition call (self : RAGEngine) (m : method_call) : returned * RAGEngine :=
  match m with
  | CallAddDocument file filename doc_id =>
      let '(r, self') := add_document self file filename doc_id in
      (RetAddDocument r, self')
  | CallSearch query max_results =>
      (RetSearch (search_relevant_content self query max_results), self)
  | CallStats =>
      (RetStats (get_document_stats self), self)
  end.

(** ** Ghost state of the chunker

    A chunk dictionary keeps the text of a chunk but not the sentences it
    was built from.  The trace records, next to the loop, the sentence
    buffer of every chunk saved and how many of its first sentences were
    carried over from the chunk before it. *)

Record traced_chunk := Traced {
  tr_sentences : list string;
  tr_seed : nat
}.

Record tracer := Tracer {
  tr_closed : list traced_chunk;
  tr_seed_now : nat
}.

Definition trace_step (chunk_size : Z) (st : chunker) (g : tracer)
    (sentence : string) : tracer :=
  if overflows chunk_size st sentence then
    Tracer (tr_closed g ++ [Traced (sentence_buffer st) (tr_seed_now g)])
           (if 2 <? length (sentence_buffer st) then 2 else 0)
  else g.

Definition traced_step (chunk_size : Z) (sg : chunker * tracer)
    (sentence : string) : chunker * tracer :=
  (chunk_step chunk_size sg.1 sentence,
   trace_step chunk_size sg.1 sg.2 sentence).

Definition traced_loop (chunk_size : Z) (sentences : list string)
    : chunker * tracer :=
  foldl (traced_step chunk_size) (chunker_init, Tracer [] 0) sentences.

Definition traced_finish (sg : chunker * tracer) : list traced_chunk :=
  if Str.is_empty (Str.strip (current_chunk sg.1)) then tr_closed sg.2
  else tr_closed sg.2 ++ [Traced (sentence_buffer sg.1) (tr_seed_now sg.2)].

(** The trace of [create_chunks text chunk_size overlap]. *)
Definition chunk_trace (text : string) (chunk_size : Z) : list traced_chunk :=
  traced_finish
    (traced_loop chunk_size (Re.split_sentences (preprocess_text text))).

(** The dictionary of a traced chunk: its sentences joined by spaces. *)
Definition chunk_of_trace (t : traced_chunk) : chunk :=
  Chunk (Str.join " " (tr_sentences t))
        (String.length (Str.join " " (tr_sentences t)))
        (length (tr_sentences t)).

(** The sentences of a chunk that were not carried over. *)
Definition fresh_sentences (t : traced_chunk) : list string :=
  drop (tr_seed t) (tr_sentences t).

(** A sentence as the splitter yields them on cleaned text: not empty,
    no blank at either end. *)
Definition solid (s : string) : Prop :=
  s ≠ EmptyString ∧ Str.lstrip s = s ∧ Str.rstrip s = s.

(** ** What the trace of a run satisfies *)

(** A traced chunk is within the size, or it got no sentence after it
    was begun: it is one sentence, or the two sentences carried over and
    one more. *)
Definition fits (chunk_size : Z) (t : traced_chunk) : Prop :=
  (Z.of_nat (String.length (Str.join " " (tr_sentences t))) ≤ chunk_size)%Z
  ∨ (∃ s, tr_sentences t = [s] ∧ tr_seed t = 0)
  ∨ (∃ a b s, tr_sentences t = [a; b; s] ∧ tr_seed t = 2).

(** A chunk and the chunk begun when it was saved. *)
Definition linked (t1 t2 : traced_chunk) : Prop :=
  (2 < length (tr_sentences t1)
   ∧ tr_seed t2 = 2
   ∧ take 2 (tr_sentences t2) = last_two (tr_sentences t1))
  ∨ (length (tr_sentences t1) ≤ 2 ∧ tr_seed t2 = 0).

Definition chained (l : list traced_chunk) : Prop :=
  ∀ i t1 t2, l !! i = Some t1 → l !! S i = Some t2 → linked t1 t2.

(** The loop invariant: the state of the loop and its trace after the
    sentences [seen]. *)
Record chunker_inv (chunk_size : Z) (seen : list string)
    (st : chunker) (g : tracer) : Prop := ChunkerInv {
  inv_current : current_chunk st = Str.join " " (sentence_buffer st);
  inv_solid : Forall solid (sentence_buffer st);
  inv_out : chunks_out st = chunk_of_trace <$> tr_closed g;
  inv_seed : tr_seed_now g ≤ length (sentence_buffer st);
  inv_seen :
    concat (fresh_sentences <$> tr_closed g)
    ++ drop (tr_seed_now g) (sentence_buffer st) = seen;
  inv_started : seen ≠ [] → sentence_buffer st ≠ [];
  inv_fresh : sentence_buffer st = [] → tr_closed g = [] ∧ tr_seed_now g = 0;
  inv_fits : Forall (fits chunk_size) (tr_closed g);
  inv_fits_now :
    sentence_buffer st ≠ [] →
    fits chunk_size (Traced (sentence_buffer st) (tr_seed_now g));
  inv_closed_solid :
    Forall (λ t, tr_sentences t ≠ [] ∧ Forall solid (tr_sentences t))
           (tr_closed g);
  inv_chained : chained (tr_closed g);
  inv_linked :
    ∀ t, last (tr_closed g) = Some t →
         linked t (Traced (sentence_buffer st) (tr_seed_now g));
  inv_first :
    ∀ t, head (tr_closed g ++ [Traced (sentence_buffer st) (tr_seed_now g)])
         = Some t → tr_seed t = 0
}.

(** ** Ghost positions of the search

    The entries of a result list do not say which entry of [self.chunks]
    they were made from; [ranked] keeps the position next to the entry. *)

Definition scored_at (query_lower : string) (query_words : gset string)
    (ic : nat * chunk_data) : option (nat * scored_chunk) :=
  (λ r, (ic.1, r)) <$> score_chunk query_lower query_words ic.2.

Definition ranked (self : RAGEngine) (query : string)
    : list (nat * scored_chunk) :=
  let query_lower := Str.lower query in
  let query_words := word_set query_lower in
  if decide (query_words = ∅) then []
  else
    sort_desc (λ ir, similarity_score ir.2)
      (omap (scored_at query_lower query_words) (imap pair (chunks self))).

(** ** The scoring rule in the words of the specification *)

Definition query_tokens (query : string) : gset string :=
  word_set (Str.lower query).

Definition common_tokens (query : string) (chunk : chunk_data) : gset string :=
  query_tokens query ∩ word_set (cd_text_lower chunk).

Definition base_score (query : string) (chunk : chunk_data) : float :=
  (float_of_nat (size (common_tokens query chunk))
   / float_of_nat (size (query_tokens query)))%float.

Definition phrase_bonus (query : string) (chunk : chunk_data) : float :=
  if Str.contains (cd_text_lower chunk) (Str.lower query)
  then 0.3%float else 0%float.

Definition sequence_bonus (query : string) (chunk : chunk_data) : float :=
  if 1 <? size (common_tokens query chunk) then 0.2%float else 0%float.

Definition capped_score (query : string) (chunk : chunk_data) : float :=
  py_min (base_score query chunk + phrase_bonus query chunk
          + sequence_bonus query chunk)%float 1.0%float.

(** ** Floats that are not NaN

    The scores are sums and quotients of floats that are zero, positive
    or plus infinity; on these [<] is a strict weak order. *)

Definition sf_nonneg (x : spec_float) : Prop :=
  match x with
  | S754_zero false | S754_infinity false | S754_finite false _ _ => True
  | _ => False
  end.

Definition sf_positive (x : spec_float) : Prop :=
  match x with
  | S754_finite false _ _ => True
  | _ => False
  end.

Definition signed_as (sx : bool) (x : spec_float) : Prop :=
  match x with
  | S754_zero s | S754_infinity s | S754_finite s _ _ => s = sx
  | S754_nan => False
  end.

Definition nonneg (x : float) : Prop := sf_nonneg (Prim2SF x).

(** ** Orders on result lists *)

(** Descending keys. *)
Definition descending {A} (key : A → float) (a b : A) : Prop :=
  (key b <=? key a)%float = true.

(** Ascending positions. *)
Definition in_order {A} (pos : A → nat) (a b : A) : Prop := pos a < pos b.

(** An entry stands before an entry that came before it only when its
    key is greater. *)
Definition stably {A} (key : A → float) (pos : A → nat) (a b : A) : Prop :=
  pos a < pos b ∨ (key b <? key a)%float = true.

(** ** States of the knowledge base *)

(** The engines that arise from a fresh engine by calls of
    [add_document]; each call draws an identifier that is not in use,
    which is what [uuid.uuid4()] is relied on for. *)
Inductive reachable : RAGEngine → Prop :=
  | reachable_init env self :
      RAGEngine_init env = Ok self →
      reachable self
  | reachable_add self file filename doc_id r self' :
      reachable self →
      Dict.get (documents self) doc_id = None →
      add_document self file filename doc_id = (r, self') →
      reachable self'.

(** No orphaned and no dangling chunks. *)
Definition chunk_count_consistent (self : RAGEngine) : Prop :=
  length (chunks self)
  = sum_list (doc_chunks <$> Dict.values (documents self)).

Definition chunks_owned (self : RAGEngine) : Prop :=
  ∀ c, c ∈ chunks self →
       is_Some (Dict.get (documents self) (cd_doc_id c)).

(** A page without readable text. *)
Definition blank_page (p : page) : Prop :=
  match p with
  | PageText page_text => Str.strip page_text = EmptyString
  | PageError => True
  end.

(** Text that starts with the marker of a page. *)
Definition marked (s : string) : Prop :=
  ∃ rest, s = String Char.newline (String "-" rest).

(** ** Sample data *)

Definition sample_pdf : pdf_file :=
  Pdf [PageText "Cats are mammals. Dogs are mammals too. Birds can fly.";
       PageError;
       PageText "Newton first law."].

Definition blank_pdf : pdf_file := Pdf [PageText "   "; PageError].

Definition fresh_engine : RAGEngine :=
  Engine [] [] "test_key"
    "https://generativelanguage.googleapis.com/v1beta/models/gemini-1.5-flash-latest:generateContent?key=test_key".

Definition sample_engine : RAGEngine :=
  (add_document fresh_engine sample_pdf "notes.pdf" "doc-1").2.

(** Entries as the tests of the repository build them. *)
Definition physics_chunk (i : nat) (text : string) : chunk_data :=
  ChunkData ("integration_" +:+ Str.of_nat i) text (Str.lower text)
            "test_physics.pdf" "integration_test" i (String.length text) 1.

Definition physics_engine : RAGEngine :=
  Engine [("integration_test", Document "test_physics.pdf" 4 5000 EmptyString)]
         [physics_chunk 0 "Physics concepts and scientific principles.";
          physics_chunk 1 "Energy is conserved.";
          physics_chunk 2 "More physics concepts.";
          physics_chunk 3 "Concepts of energy."]
         "test_key" EmptyString.

(** A text whose sentences outgrow a chunk size of 10. *)
Definition overlap_text : string := "A. B. C. Dddddddddd. Eeeeeeeeee. F.".

(** ** Words and cleaned texts *)

(** What [Re.findall_go] yields for the word that is open when the text
    ends or a character that is no word character stands. *)
Definition flush (word : list ascii) : list string :=
  match word with
  | [] => []
  | _ => [string_of_list_ascii (rev word)]
  end.

(** Every white-space character of [s] is a blank, and a character that
    is not white space follows it. *)
Fixpoint single_blanks (s : string) : bool :=
  match s with
  | EmptyString => true
  | String c r =>
      if Char.is_space c
      then Ascii.eqb c Char.space
           && match r with
              | EmptyString => false
              | String d _ => negb (Char.is_space d)
              end
           && single_blanks r
      else single_blanks r
  end.

Definition starts_blank (s : string) : bool :=
  match s with
  | EmptyString => false
  | String c _ => Char.is_space c
  end.

(** Every character of [s] is a word character, white space or one of
    the punctuation marks that [preprocess_text] keeps. *)
Definition kept (s : string) : bool :=
  forallb Re.keep (list_ascii_of_string s).

(** A text as [preprocess_text] leaves it: kept characters only, words
    and marks separated by single blanks, no blank at either end. *)
Definition clean (s : string) : bool :=
  kept s && negb (starts_blank s) && single_blanks s.

(** Every white-space character of [s] is a blank. *)
Definition plain (s : string) : bool :=
  forallb (λ c, implb (Char.is_space c) (Ascii.eqb c Char.space))
          (list_ascii_of_string s).

(** Every white-space character of [s] is a blank that does not follow a
    blank; [after_blank] tells that a blank stands before [s]. *)
Fixpoint spaced (after_blank : bool) (s : string) : bool :=
  match s with
  | EmptyString => true
  | String c r =>
      if Char.is_space c
      then Ascii.eqb c Char.space && negb after_blank && spaced true r
      else spaced false r
  end.

(** A page of which [extract_text_from_pdf] takes the text. *)
Definition readable_page (p : page) : bool :=
  match p with
  | PageText page_text => negb (Str.is_empty (Str.strip page_text))
  | PageError => false
  end.

Definition readable (file : pdf_file) : bool :=
  match file with
  | Pdf pages => existsb readable_page pages
  | PdfUnreadable _ => false
  end.

(** ** Quiz generation *)

(** [str(n)] for an [int] *)
Definition int_str (n : Z) : string := NilZero.string_of_int (Z.to_int n).

(** The dictionary returned by [generate_study_quiz]: the key ['error']
    alone, or the keys ['quiz_content'], ['source_documents'] and
    ['questions_generated']. *)
Inductive quiz :=
  | QuizError (error : string)
  | Quiz (quiz_content : string) (source_documents : list string)
         (questions_generated : Z).

Definition general_quiz_query : string := "main concepts key points important".

Definition quiz_prompt (question_count : Z) (quiz_content : string) : string :=
  lines [
    "Based on the following study material, create " +:+ int_str question_count
      +:+ " educational quiz questions to test student understanding:";
    EmptyString;
    "STUDY MATERIAL:";
    quiz_content;
    EmptyString;
    "Please create a variety of question types:";
    "- Multiple choice questions with 4 options each (label A, B, C, D)";
    "- Short answer questions";
    "- True/false questions";
    EmptyString;
    "For each question:";
    "1. Clearly state the question";
    "2. Provide all answer options (for multiple choice)";
    "3. Indicate the correct answer";
    "4. Give a brief explanation of why the answer is correct";
    EmptyString;
    "Format the quiz clearly with numbered questions." ].

(** [generate_study_quiz].  [topic] is [None] or a string, and the empty
    string counts as no topic.  [list(set(...))] lists the file names in
    an order Python leaves open; here it is the order of [elements]. *)
Definition generate_study_quiz (self : RAGEngine) (topic : option string)
    (question_count : Z) : io quiz :=
  let relevant_chunks :=
    match topic with
    | Some topic =>
        if Str.is_empty topic
        then search_relevant_content self general_quiz_query 5
        else search_relevant_content self topic 5
    | None => search_relevant_content self general_quiz_query 5
    end in
  match relevant_chunks with
  | [] =>
      Ret (QuizError "Insufficient content available for quiz generation. Please upload more study materials.")
  | _ =>
      let quiz_content :=
        Str.join (Str.nl +:+ Str.nl) (sc_text <$> take 3 relevant_chunks) in
      CallGoogleAI (quiz_prompt question_count quiz_content) (λ response,
        match response with
        | Ok quiz_response =>
            Ret (Quiz quiz_response
                      (elements (list_to_set (sc_filename <$> take 3 relevant_chunks)
                                 : gset string))
                      question_count)
        | Raise (Exception message) =>
            Ret (QuizError ("Quiz generation failed: " +:+ message))
        end)
  end.

(** ** The upload loop of the application

    [app.py] hands every uploaded file to [add_document] inside a [try]
    and counts the calls that return.  An upload is the file, its name
    and the identifier that [uuid.uuid4()] yields when the call gets that
    far.  The Streamlit calls that show the progress are left out; the
    messages given to [st.error] are collected. *)
Record upload := Upload {
  up_file : pdf_file;
  up_name : string;
  up_uuid : string
}.

Record batch := Batch {
  successful_uploads : nat;
  error_messages : list string;
  rag_engine : RAGEngine
}.

(** One iteration of the loop over [uploaded_files]. *)
Definition process_upload (st : batch) (uploaded_file : upload) : batch :=
  match add_document (rag_engine st) (up_file uploaded_file)
          (up_name uploaded_file) (up_uuid uploaded_file) with
  | (Ok _, self') =>
      Batch (successful_uploads st + 1) (error_messages st) self'
  | (Raise (Exception message), self') =>
      Batch (successful_uploads st)
            (error_messages st
             ++ ["Failed to process " +:+ up_name uploaded_file +:+ ": "
                 +:+ message])
            self'
  end.

Definition process_all_documents (self : RAGEngine)
    (uploaded_files : list upload) : batch :=
  foldl process_upload (Batch 0 [] self) uploaded_files.

(** ** Stored entries *)

(** What holds of an entry of [self.chunks] that [add_document] stored:
    its identifier is made of the identifier of its document and its
    index, its text is not empty and has no blank at either end,
    ['text_lower'] and ['length'] belong to that text, and its document
    is stored under its file name with more chunks than its index. *)
Definition chunk_stored (self : RAGEngine) (c : chunk_data) : Prop :=
  cd_id c = cd_doc_id c +:+ "_" +:+ Str.of_nat (cd_chunk_index c)
  ∧ cd_text c ≠ EmptyString
  ∧ Str.strip (cd_text c) = cd_text c
  ∧ cd_text_lower c = Str.lower (cd_text c)
  ∧ cd_length c = String.length (cd_text c)
  ∧ 0 < cd_sentence_count c
  ∧ ∃ d, Dict.get (documents self) (cd_doc_id c) = Some d
         ∧ doc_filename d = cd_filename c
         ∧ cd_chunk_index c < doc_chunks d.

(** * Properties *)

(** ** Strings *)

Lemma append_nil s : EmptyString +:+ s = s.
Proof. reflexivity. Qed.

Lemma append_cons c r s : String c r +:+ s = String c (r +:+ s).
Proof. reflexivity. Qed.

Lemma append_empty_r s : s +:+ EmptyString = s.
Proof. induction s; rewrite ?append_cons, ?append_nil; congruence. Qed.

Lemma append_assoc s1 s2 s3 : (s1 +:+ s2) +:+ s3 = s1 +:+ (s2 +:+ s3).
Proof. induction s1; rewrite ?append_cons, ?append_nil; congruence. Qed.

Lemma length_append s1 s2 :
  String.length (s1 +:+ s2) = String.length s1 + String.length s2.
Proof. induction s1; rewrite ?append_cons, ?append_nil; simpl; congruence. Qed.

Lemma is_empty_true s : Str.is_empty s = true ↔ s = EmptyString.
Proof. by destruct s. Qed.

Lemma is_empty_false s : Str.is_empty s = false ↔ s ≠ EmptyString.
Proof. by destruct s. Qed.

Lemma append_nonempty_l s1 s2 : s1 ≠ EmptyString → s1 +:+ s2 ≠ EmptyString.
Proof. destruct s1; [done|]. by rewrite append_cons. Qed.

Lemma lstrip_length s : String.length (Str.lstrip s) ≤ String.length s.
Proof.
  induction s as [|c r IH]; simpl; [done|].
  destruct (Char.is_space c); simpl; lia.
Qed.

Lemma rstrip_length s : String.length (Str.rstrip s) ≤ String.length s.
Proof.
  induction s as [|c r IH]; simpl; [done|].
  destruct (Char.is_space c && Str.is_empty (Str.rstrip r)); simpl; lia.
Qed.

Lemma strip_length s : String.length (Str.strip s) ≤ String.length s.
Proof.
  unfold Str.strip. pose proof (rstrip_length (Str.lstrip s)).
  pose proof (lstrip_length s). lia.
Qed.

Lemma lstrip_append s1 s2 :
  s1 ≠ EmptyString → Str.lstrip s1 = s1 → Str.lstrip (s1 +:+ s2) = s1 +:+ s2.
Proof.
  destruct s1 as [|c r]; [done|]. rewrite append_cons. simpl. intros _.
  destruct (Char.is_space c); [|done].
  intros H. pose proof (lstrip_length r) as Hl.
  rewrite H in Hl. simpl in Hl. lia.
Qed.

Lemma rstrip_idem s : Str.rstrip (Str.rstrip s) = Str.rstrip s.
Proof.
  induction s as [|c r IH]; simpl; [done|].
  destruct (Char.is_space c) eqn:Hc; simpl.
  - destruct (Str.is_empty (Str.rstrip r)) eqn:He; simpl; [done|].
    by rewrite IH, Hc, He.
  - by rewrite IH, Hc.
Qed.

Lemma rstrip_append s1 s2 :
  s2 ≠ EmptyString → Str.rstrip s2 = s2 → Str.rstrip (s1 +:+ s2) = s1 +:+ s2.
Proof.
  intros Hne H2. induction s1 as [|c r IH]; [done|].
  rewrite append_cons. simpl.
  rewrite IH. rewrite (proj2 (is_empty_false (r +:+ s2))).
  - by rewrite andb_false_r.
  - destruct r; [done|]. by rewrite append_cons.
Qed.

Lemma rstrip_tail c r :
  Str.rstrip (String c r) = String c r → Str.rstrip r = r.
Proof.
  simpl. destruct (Char.is_space c && Str.is_empty (Str.rstrip r)); [done|].
  congruence.
Qed.

Lemma rstrip_head c r :
  Str.rstrip (String c r) = String c r → r = EmptyString → Char.is_space c = false.
Proof.
  intros H ->. simpl in H. by destruct (Char.is_space c).
Qed.

Lemma lstrip_head c r :
  Str.lstrip (String c r) = String c r ↔ Char.is_space c = false.
Proof.
  simpl. destruct (Char.is_space c); [|done]. split; [|done].
  intros H. pose proof (lstrip_length r) as Hl.
  rewrite H in Hl. simpl in Hl. lia.
Qed.

Lemma lstrip_idem s : Str.lstrip (Str.lstrip s) = Str.lstrip s.
Proof.
  induction s as [|c r IH]; simpl; [done|].
  destruct (Char.is_space c) eqn:Hc; [done|]. simpl. by rewrite Hc.
Qed.

(** What [strip] returns has no blank at either end. *)
Lemma strip_trimmed s :
  Str.lstrip (Str.strip s) = Str.strip s ∧ Str.rstrip (Str.strip s) = Str.strip s.
Proof.
  unfold Str.strip. split; [|apply rstrip_idem].
  pose proof (lstrip_idem s) as Hl.
  destruct (Str.lstrip s) as [|c r]; [done|].
  apply lstrip_head in Hl. simpl. rewrite Hl. simpl. by rewrite Hl.
Qed.

Lemma strip_solid s : solid s → Str.strip s = s.
Proof. intros (_ & Hl & Hr). unfold Str.strip. by rewrite Hl. Qed.

Lemma solid_append s1 s2 : solid s1 → solid s2 → solid (s1 +:+ " " +:+ s2).
Proof.
  intros (Hn1 & Hl1 & _) (Hn2 & _ & Hr2). split; [|split].
  - by apply append_nonempty_l.
  - by apply lstrip_append.
  - rewrite <- append_assoc. by apply rstrip_append.
Qed.

(** ** Joining sentences *)

Lemma join_cons sep s l :
  l ≠ [] → Str.join sep (s :: l) = s +:+ sep +:+ Str.join sep l.
Proof. by destruct l. Qed.

Lemma join_snoc sep l s :
  l ≠ [] → Str.join sep (l ++ [s]) = Str.join sep l +:+ sep +:+ s.
Proof.
  induction l as [|x l IH]; [done|]. intros _.
  destruct l as [|y l]; [done|].
  change ((x :: y :: l) ++ [s]) with (x :: ((y :: l) ++ [s])).
  rewrite join_cons by done. rewrite IH by done.
  rewrite (join_cons sep x (y :: l)) by done.
  by rewrite !append_assoc.
Qed.

Lemma join_solid l : l ≠ [] → Forall solid l → solid (Str.join " " l).
Proof.
  induction l as [|x l IH]; [done|]. intros _ Hall.
  apply Forall_cons in Hall as [Hx Hl].
  destruct l as [|y l]; [done|].
  rewrite join_cons by done. apply solid_append; [done|]. by apply IH.
Qed.

Lemma join_nonempty l :
  l ≠ [] → Forall solid l → Str.join " " l ≠ EmptyString.
Proof. intros Hl Hall. by destruct (join_solid l Hl Hall). Qed.

Lemma prefix_append s1 s2 : String.prefix s1 (s1 +:+ s2) = true.
Proof.
  induction s1 as [|c r IH]; [by destruct s2|].
  rewrite append_cons. simpl.
  destruct (ascii_dec c c); [done|congruence].
Qed.

Lemma contains_append_r hay needle pre :
  Str.contains hay needle = true → Str.contains (pre +:+ hay) needle = true.
Proof.
  intros H. induction pre as [|c r IH]; [done|].
  rewrite append_cons. simpl. rewrite IH. apply orb_true_r.
Qed.

Lemma contains_of_prefix hay needle :
  String.prefix needle hay = true → Str.contains hay needle = true.
Proof.
  intros H. destruct hay as [|c r].
  - change (Str.contains EmptyString needle)
      with (String.prefix needle EmptyString || false).
    by rewrite H.
  - change (Str.contains (String c r) needle)
      with (String.prefix needle (String c r) || Str.contains r needle).
    by rewrite H.
Qed.

Lemma contains_prefix s1 s2 : Str.contains (s1 +:+ s2) s1 = true.
Proof. apply contains_of_prefix, prefix_append. Qed.

Lemma contains_join s l : s ∈ l → Str.contains (Str.join " " l) s = true.
Proof.
  induction l as [|x l IH]; [by intros ?%elem_of_nil|].
  intros Hs. destruct l as [|y l].
  - apply list_elem_of_singleton in Hs as ->. simpl.
    pose proof (contains_prefix x EmptyString) as H.
    by rewrite append_empty_r in H.
  - rewrite join_cons by done.
    apply elem_of_cons in Hs as [->|Hs]; [apply contains_prefix|].
    rewrite <- append_assoc. apply contains_append_r. by apply IH.
Qed.

(** ** The sentence splitter *)

Lemma terminator_not_space c :
  Char.is_terminator c = true → Char.is_space c = false.
Proof.
  destruct c as [[] [] [] [] [] [] [] []]; simpl; intros H;
    try discriminate H; reflexivity.
Qed.

Lemma rstrip_cons c r :
  Str.rstrip r = r → (r = EmptyString → Char.is_space c = false) →
  Str.rstrip (String c r) = String c r.
Proof.
  intros Hr Hc. simpl. rewrite Hr. destruct r as [|c' r'].
  - by rewrite Hc.
  - by rewrite andb_false_r.
Qed.

Lemma rstrip_blank_tail c r :
  Str.rstrip (String c r) = String c r → Char.is_space c = true →
  r ≠ EmptyString.
Proof.
  intros H Hc ->. apply rstrip_head in H; [congruence|done].
Qed.

(** The pieces of a text without trailing blank: all pieces after the
    first are solid, and so is the first when the text starts it. *)
Lemma split_go_solid s : ∀ after_term in_sep,
  Str.rstrip s = s →
  (in_sep = true → s ≠ EmptyString) →
  ∃ h t,
    Re.split_go after_term in_sep s = h :: t
    ∧ Forall solid t
    ∧ Str.rstrip h = h
    ∧ (h = EmptyString →
       s = EmptyString
       ∨ ∃ c r, s = String c r ∧ Char.is_space c = true ∧ after_term = true)
    ∧ (∀ c r, s = String c r → Char.is_space c = false → ∃ h', h = String c h')
    ∧ (in_sep = true → solid h).
Proof.
  induction s as [|c r IH]; intros after_term in_sep Hr Hsep.
  - exists EmptyString, []. simpl. split_and!; try done.
    + by left.
    + intros ->. by destruct Hsep.
  - pose proof (rstrip_tail _ _ Hr) as Hr'. simpl.
    destruct (Char.is_space c) eqn:Hc; simpl.
    + pose proof (rstrip_blank_tail _ _ Hr Hc) as Hne.
      destruct in_sep.
      * rewrite orb_true_r.
        destruct (IH false true Hr' (λ _, Hne)) as (h & t & -> & Ht & Hh & _ & _ & Hs).
        specialize (Hs eq_refl). exists h, t. split_and!; try done.
        -- intros ->. by destruct Hs.
        -- intros c' r' [= <- <-]. congruence.
      * rewrite orb_false_r. destruct after_term.
        -- destruct (IH false true Hr' (λ _, Hne)) as (h & t & -> & Ht & Hh & _ & _ & Hs).
           exists EmptyString, (h :: t). split_and!; try done.
           ++ apply Forall_cons. split; [by apply Hs|done].
           ++ intros _. right. by exists c, r.
           ++ intros c' r' [= <- <-]. congruence.
        -- destruct (IH (Char.is_terminator c) false Hr') as (h & t & -> & Ht & Hh & He & _ & _);
             [done|].
           exists (String c h), t. simpl. split_and!; try done.
           ++ apply rstrip_cons; [done|]. intros ->.
              destruct (He eq_refl) as [->|(c' & r' & -> & _ & Hterm)].
              ** by apply rstrip_head in Hr.
              ** apply terminator_not_space in Hterm. congruence.
           ++ intros c' r' [= <- <-] _. by exists h.
    + destruct (IH (Char.is_terminator c) false Hr') as (h & t & -> & Ht & Hh & He & _ & _);
        [done|].
      assert (Hrs : Str.rstrip (String c h) = String c h).
      { apply rstrip_cons; [done|]. by intros _. }
      exists (String c h), t. simpl. split_and!; try done.
      * intros c' r' [= <- <-] _. by exists h.
      * intros _. split_and!; [done| |done]. by apply lstrip_head.
Qed.

Lemma split_sentences_solid s :
  s ≠ EmptyString → Str.lstrip s = s → Str.rstrip s = s →
  Forall solid (Re.split_sentences s).
Proof.
  intros Hne Hl Hr. unfold Re.split_sentences.
  destruct (split_go_solid s false false Hr) as (h & t & -> & Ht & Hh & _ & Hc & _);
    [done|].
  apply Forall_cons. split; [|done].
  destruct s as [|c r]; [done|].
  apply lstrip_head in Hl.
  destruct (Hc c r eq_refl Hl) as [h' ->].
  split_and!; [done| |done]. by apply lstrip_head.
Qed.

Lemma preprocess_trimmed text :
  Str.lstrip (preprocess_text text) = preprocess_text text
  ∧ Str.rstrip (preprocess_text text) = preprocess_text text.
Proof. apply strip_trimmed. Qed.

(** On cleaned text that is not empty, every sentence is solid. *)
Lemma sentences_solid text :
  preprocess_text text ≠ EmptyString →
  Forall solid (Re.split_sentences (preprocess_text text)).
Proof.
  intros Hne. destruct (preprocess_trimmed text).
  by apply split_sentences_solid.
Qed.

(** ** The loop of the chunker *)

Lemma chunk_loop_snoc chunk_size l s :
  chunk_loop chunk_size (l ++ [s])
  = chunk_step chunk_size (chunk_loop chunk_size l) s.
Proof. unfold chunk_loop. by rewrite foldl_app. Qed.

Lemma traced_loop_snoc chunk_size l s :
  traced_loop chunk_size (l ++ [s])
  = traced_step chunk_size (traced_loop chunk_size l) s.
Proof. unfold traced_loop. by rewrite foldl_app. Qed.

(** The traced loop runs the loop of [create_chunks]. *)
Lemma traced_loop_chunker chunk_size l :
  (traced_loop chunk_size l).1 = chunk_loop chunk_size l.
Proof.
  induction l as [|s l IH] using rev_ind; [done|].
  by rewrite traced_loop_snoc, chunk_loop_snoc, <- IH.
Qed.

Lemma last_two_length (l : list string) :
  2 < length l → ∃ front a b, l = front ++ [a; b] ∧ last_two l = [a; b]
                              ∧ front ≠ [].
Proof.
  intros Hl. unfold last_two.
  exists (take (length l - 2) l).
  destruct (drop (length l - 2) l) as [|a [|b [|c t]]] eqn:E;
    pose proof (f_equal length E) as Hlen;
    rewrite length_drop in Hlen; simpl in Hlen; try lia.
  exists a, b. split_and!; [|done|].
  - by rewrite <- E, take_drop.
  - intros Ht%(f_equal length). rewrite length_take in Ht. simpl in Ht. lia.
Qed.

Lemma chained_snoc l t :
  chained l → (∀ t', last l = Some t' → linked t' t) → chained (l ++ [t]).
Proof.
  intros Hl Hlast i t1 t2 H1 H2.
  destruct (decide (S i < length l)) as [Hi|Hi].
  - rewrite lookup_app_l in H1 by lia. rewrite lookup_app_l in H2 by lia.
    by eapply Hl.
  - assert (Hlen : S i = length l).
    { apply lookup_lt_Some in H2. rewrite length_app in H2. simpl in H2. lia. }
    rewrite lookup_app_l in H1 by lia.
    rewrite Hlen, lookup_app_r, Nat.sub_diag in H2 by lia.
    injection H2 as <-. apply Hlast.
    rewrite last_lookup. by replace (pred (length l)) with i by lia.
Qed.

Lemma close_chunk_traced st seed :
  current_chunk st = Str.join " " (sentence_buffer st) →
  Forall solid (sentence_buffer st) → sentence_buffer st ≠ [] →
  close_chunk st = chunk_of_trace (Traced (sentence_buffer st) seed).
Proof.
  intros Hcur Hsolid Hne. unfold close_chunk, chunk_of_trace. simpl.
  rewrite Hcur. f_equal. apply strip_solid. by apply join_solid.
Qed.

Lemma buffer_nonempty st :
  current_chunk st = Str.join " " (sentence_buffer st) →
  Str.is_empty (current_chunk st) = false → sentence_buffer st ≠ [].
Proof. intros Hcur He Hb. rewrite Hcur, Hb in He. done. Qed.

Lemma buffer_empty st :
  current_chunk st = Str.join " " (sentence_buffer st) →
  Forall solid (sentence_buffer st) →
  Str.is_empty (current_chunk st) = true → sentence_buffer st = [].
Proof.
  intros Hcur Hsolid He. destruct (sentence_buffer st) as [|x l] eqn:E; [done|].
  apply is_empty_true in He. rewrite Hcur in He.
  by apply join_nonempty in He.
Qed.

(** One iteration keeps the invariant. *)
Lemma chunker_inv_step chunk_size seen st g s :
  solid s →
  chunker_inv chunk_size seen st g →
  chunker_inv chunk_size (seen ++ [s])
    (chunk_step chunk_size st s) (trace_step chunk_size st g s).
Proof.
  intros Hs [Hcur Hsolid Hout Hseed Hseen Hstarted Hfresh Hfits Hnow Hclosed Hchain Hlink Hfirst].
  unfold chunk_step, trace_step.
  destruct (overflows chunk_size st s) eqn:Hov.
  - (* the current chunk is saved *)
    unfold overflows in Hov. apply andb_true_iff in Hov as [_ Hne].
    apply negb_true_iff in Hne.
    pose proof (buffer_nonempty st Hcur Hne) as Hbuf.
    assert (Hclosed' :
      Forall (λ t, tr_sentences t ≠ [] ∧ Forall solid (tr_sentences t))
             (tr_closed g ++ [Traced (sentence_buffer st) (tr_seed_now g)])).
    { apply Forall_app. split; [done|]. by apply Forall_singleton. }
    assert (Hfits' :
      Forall (fits chunk_size)
             (tr_closed g ++ [Traced (sentence_buffer st) (tr_seed_now g)])).
    { apply Forall_app. split; [done|]. apply Forall_singleton. by apply Hnow. }
    assert (Hchain' :
      chained (tr_closed g ++ [Traced (sentence_buffer st) (tr_seed_now g)])).
    { by apply chained_snoc. }
    assert (Hout' :
      chunks_out st ++ [close_chunk st]
      = chunk_of_trace <$> (tr_closed g ++ [Traced (sentence_buffer st) (tr_seed_now g)])).
    { rewrite fmap_app, Hout. simpl. f_equal. f_equal.
      by apply close_chunk_traced. }
    assert (Hfirst' : ∀ new seed t,
      head ((tr_closed g ++ [Traced (sentence_buffer st) (tr_seed_now g)])
            ++ [Traced new seed]) = Some t → tr_seed t = 0).
    { intros new seed t Ht. apply Hfirst.
      destruct (tr_closed g); exact Ht. }
    destruct (2 <? length (sentence_buffer st)) eqn:Hlen.
    + apply Nat.ltb_lt in Hlen.
      destruct (last_two_length _ Hlen) as (front & a & b & Hsplit & Hlast & Hfront).
      rewrite Hlast.
      assert (Hab : Forall solid [a; b]).
      { rewrite Hsplit in Hsolid. by apply Forall_app in Hsolid as [_ ?]. }
      split; simpl.
      * by rewrite append_assoc.
      * change [a; b; s] with ([a; b] ++ [s]).
        apply Forall_app. split; [done|by apply Forall_singleton].
      * done.
      * lia.
      * rewrite fmap_app, concat_app. simpl. rewrite app_nil_r.
        unfold fresh_sentences at 2. simpl. by rewrite <- Hseen, <- app_assoc.
      * done.
      * done.
      * done.
      * intros _. right. right. by exists a, b, s.
      * done.
      * done.
      * intros t. rewrite last_snoc. intros [= <-]. left. simpl.
        by rewrite Hlast.
      * apply Hfirst'.
    + apply Nat.ltb_ge in Hlen.
      split; simpl.
      * done.
      * by apply Forall_singleton.
      * done.
      * lia.
      * rewrite fmap_app, concat_app. simpl. rewrite app_nil_r.
        unfold fresh_sentences at 2. simpl. by rewrite <- Hseen, <- app_assoc.
      * done.
      * done.
      * done.
      * intros _. right. left. by exists s.
      * done.
      * done.
      * intros t. rewrite last_snoc. intros [= <-]. right. simpl. done.
      * apply Hfirst'.
  - (* the sentence joins the current chunk *)
    destruct (Str.is_empty (current_chunk st)) eqn:He.
    + pose proof (buffer_empty st Hcur Hsolid He) as Hbuf.
      destruct (Hfresh Hbuf) as [Hnil Hzero].
      rewrite Hbuf in *. rewrite Hnil, Hzero in *.
      split; simpl; rewrite ?Hnil, ?Hzero; simpl.
      * done.
      * by apply Forall_singleton.
      * done.
      * lia.
      * simpl in Hseen. by rewrite <- Hseen.
      * done.
      * done.
      * done.
      * intros _. right. left. by exists s.
      * done.
      * done.
      * done.
      * by intros t [= <-].
    + pose proof (buffer_nonempty st Hcur He) as Hbuf.
      assert (Hjoin : current_chunk st +:+ " " +:+ s
                      = Str.join " " (sentence_buffer st ++ [s])).
      { rewrite join_snoc by done. by rewrite Hcur. }
      split; simpl.
      * done.
      * apply Forall_app. split; [done|by apply Forall_singleton].
      * done.
      * rewrite length_app. lia.
      * rewrite drop_app_le by done. by rewrite app_assoc, Hseen.
      * intros _. by destruct (sentence_buffer st).
      * intros Hnil. by destruct (sentence_buffer st).
      * done.
      * intros _. left. simpl. rewrite <- Hjoin.
        unfold overflows in Hov. rewrite He in Hov. simpl in Hov.
        rewrite andb_true_r in Hov. apply Z.ltb_ge in Hov.
        rewrite !length_append. simpl. lia.
      * done.
      * done.
      * intros t Ht. destruct (Hlink t Ht) as [(H1 & H2 & H3)|[H1 H2]].
        -- left. simpl in *. split_and!; [done|done|].
           rewrite take_app_le by lia. done.
        -- right. done.
      * intros t Ht. destruct (tr_closed g); [|by apply Hfirst].
        simpl in Ht. injection Ht as <-.
        exact (Hfirst (Traced (sentence_buffer st) (tr_seed_now g)) eq_refl).
Qed.

Lemma chunker_inv_loop chunk_size sentences :
  Forall solid sentences →
  chunker_inv chunk_size sentences
    (traced_loop chunk_size sentences).1 (traced_loop chunk_size sentences).2.
Proof.
  induction sentences as [|s l IH] using rev_ind; intros Hall.
  - split; simpl; try done.
    + intros t [= <-]. done.
  - apply Forall_app in Hall as [Hl Hs]. apply Forall_inv in Hs.
    rewrite traced_loop_snoc. unfold traced_step. simpl.
    apply chunker_inv_step; [done|by apply IH].
Qed.

(** What the finished trace of solid sentences says. *)
Lemma traced_finish_spec chunk_size sentences :
  sentences ≠ [] → Forall solid sentences →
  let trace := traced_finish (traced_loop chunk_size sentences) in
  chunker_finish (chunk_loop chunk_size sentences) = chunk_of_trace <$> trace
  ∧ concat (fresh_sentences <$> trace) = sentences
  ∧ Forall (fits chunk_size) trace
  ∧ Forall (λ t, tr_sentences t ≠ [] ∧ Forall solid (tr_sentences t)) trace
  ∧ chained trace
  ∧ (∀ t, head trace = Some t → tr_seed t = 0).
Proof.
  intros Hne Hall trace. subst trace.
  destruct (chunker_inv_loop chunk_size sentences Hall)
    as [Hcur Hsolid Hout Hseed Hseen Hstarted Hfresh Hfits Hnow Hclosed Hchain Hlink Hfirst].
  rewrite <- traced_loop_chunker.
  destruct (traced_loop chunk_size sentences) as [st g]. simpl in *.
  specialize (Hstarted Hne).
  pose proof (join_solid _ Hstarted Hsolid) as Hjoin.
  unfold chunker_finish, traced_finish. simpl.
  rewrite Hcur, (strip_solid _ Hjoin).
  rewrite (proj2 (is_empty_false _)) by apply Hjoin.
  split_and!.
  - rewrite fmap_app, Hout. simpl. f_equal. f_equal.
    by apply close_chunk_traced.
  - rewrite fmap_app, concat_app. simpl. by rewrite app_nil_r.
  - apply Forall_app. split; [done|]. apply Forall_singleton. by apply Hnow.
  - apply Forall_app. split; [done|]. by apply Forall_singleton.
  - by apply chained_snoc.
  - done.
Qed.

Lemma split_sentences_nonempty s : Re.split_sentences s ≠ [].
Proof.
  unfold Re.split_sentences. generalize false at 1. generalize false.
  induction s as [|c r IH]; intros b1 b2; simpl; [done|].
  destruct (Char.is_space c && (b2 || b1)).
  - destruct b1; [apply IH|done].
  - destruct (Re.split_go (Char.is_terminator c) false r); done.
Qed.

(** Without cleaned text there is no chunk. *)
Lemma create_chunks_blank text chunk_size overlap :
  preprocess_text text = EmptyString →
  create_chunks text chunk_size overlap = [] ∧ chunk_trace text chunk_size = [].
Proof.
  intros H. unfold create_chunks, chunk_trace. rewrite H.
  unfold chunk_loop, traced_loop, traced_step, chunk_step, trace_step, overflows.
  simpl. rewrite andb_false_r. done.
Qed.

(** With cleaned text the trace describes the chunks. *)
Lemma create_chunks_spec text chunk_size overlap :
  preprocess_text text ≠ EmptyString →
  let trace := chunk_trace text chunk_size in
  create_chunks text chunk_size overlap = chunk_of_trace <$> trace
  ∧ concat (fresh_sentences <$> trace)
    = Re.split_sentences (preprocess_text text)
  ∧ Forall (fits chunk_size) trace
  ∧ Forall (λ t, tr_sentences t ≠ [] ∧ Forall solid (tr_sentences t)) trace
  ∧ chained trace
  ∧ (∀ t, head trace = Some t → tr_seed t = 0).
Proof.
  intros Hne. apply traced_finish_spec.
  - apply split_sentences_nonempty.
  - by apply sentences_solid.
Qed.

Lemma create_chunks_traced text chunk_size overlap :
  create_chunks text chunk_size overlap
  = chunk_of_trace <$> chunk_trace text chunk_size.
Proof.
  destruct (decide (preprocess_text text = EmptyString)) as [He|Hne].
  - by destruct (create_chunks_blank text chunk_size overlap He) as [-> ->].
  - by apply create_chunks_spec.
Qed.

Lemma create_chunks_nonempty text chunk_size overlap :
  preprocess_text text ≠ EmptyString →
  create_chunks text chunk_size overlap ≠ [].
Proof.
  intros Hne.
  destruct (create_chunks_spec text chunk_size overlap Hne) as (-> & Hcat & _).
  intros Hnil. apply fmap_nil_inv in Hnil. rewrite Hnil in Hcat. simpl in Hcat.
  by apply (split_sentences_nonempty (preprocess_text text)).
Qed.

(** ** Chunk sizes *)

(** C3, as the code has it: every chunk saved is within [chunk_size],
    unless no sentence was added to it after it was begun; such a chunk
    is a single sentence, or the two sentences carried over from the
    chunk before it followed by one sentence. *)
Theorem chunk_size_bound text chunk_size overlap :
  create_chunks text chunk_size overlap
  = chunk_of_trace <$> chunk_trace text chunk_size
  ∧ Forall (λ t,
      (Z.of_nat (chunk_length (chunk_of_trace t)) ≤ chunk_size)%Z
      ∨ (∃ s, tr_sentences t = [s] ∧ tr_seed t = 0)
      ∨ (∃ a b s, tr_sentences t = [a; b; s] ∧ tr_seed t = 2))
    (chunk_trace text chunk_size).
Proof.
  split; [apply create_chunks_traced|].
  destruct (decide (preprocess_text text = EmptyString)) as [He|Hne].
  - destruct (create_chunks_blank text chunk_size overlap He) as [_ ->].
    constructor.
  - by destruct (create_chunks_spec text chunk_size overlap Hne)
      as (_ & _ & Hfits & _).
Qed.

(** C3, as stated, fails: with [chunk_size = 10] the third chunk of
    [overlap_text] has three sentences and 26 characters, 16 more than
    the size, while its last sentence has 11 characters (and none of its
    sentences has more). *)
Lemma chunk_size_bound_counterexample :
  create_chunks overlap_text 10 default_overlap !! 2
  = Some (Chunk "C. Dddddddddd. Eeeeeeeeee." 26 3)
  ∧ chunk_trace overlap_text 10 !! 2
    = Some (Traced ["C."; "Dddddddddd."; "Eeeeeeeeee."] 2)
  ∧ ¬ (26 ≤ 10 + Z.of_nat (String.length "Eeeeeeeeee."))%Z.
Proof. split_and!; [by vm_compute|by vm_compute|]. vm_compute. by intros H. Qed.

(** ** Overlap *)

(** C4: when the loop saves the current chunk at a sentence [s] of the
    text, the chunk it begins is, if the saved buffer had more than two
    sentences, the last two of them joined by spaces and followed by [s],
    and [s] alone otherwise.  On the chunks emitted: every chunk that
    follows a chunk of more than two sentences starts with the last two
    sentences of that chunk. *)
Theorem overlap_at_boundary text chunk_size :
  (∀ pre s post,
      Re.split_sentences (preprocess_text text) = pre ++ s :: post →
      overflows chunk_size (chunk_loop chunk_size pre) s = true →
      let st := chunk_loop chunk_size pre in
      let st' := chunk_loop chunk_size (pre ++ [s]) in
      chunks_out st' = chunks_out st ++ [close_chunk st]
      ∧ (2 < length (sentence_buffer st) →
         ∃ front a b,
           sentence_buffer st = front ++ [a; b]
           ∧ current_chunk st' = a +:+ " " +:+ b +:+ " " +:+ s
           ∧ sentence_buffer st' = [a; b; s])
      ∧ (length (sentence_buffer st) ≤ 2 →
         current_chunk st' = s ∧ sentence_buffer st' = [s]))
  ∧ create_chunks text chunk_size default_overlap
    = chunk_of_trace <$> chunk_trace text chunk_size
  ∧ chained (chunk_trace text chunk_size).
Proof.
  split_and!.
  - intros pre s post _ Hov st st'. subst st'.
    rewrite chunk_loop_snoc. fold st. unfold chunk_step. fold st in Hov.
    rewrite Hov. split_and!.
    + by destruct (2 <? length (sentence_buffer st)).
    + intros Hlen.
      destruct (last_two_length _ Hlen) as (front & a & b & Hsplit & Hlast & _).
      apply Nat.ltb_lt in Hlen. rewrite Hlen, Hlast. simpl.
      exists front, a, b. split_and!; [done| |done].
      by rewrite append_assoc.
    + intros Hlen. apply Nat.ltb_ge in Hlen. by rewrite Hlen.
  - apply create_chunks_traced.
  - destruct (decide (preprocess_text text = EmptyString)) as [He|Hne].
    + destruct (create_chunks_blank text chunk_size default_overlap He) as [_ ->].
      by intros i t1 t2 H.
    + by destruct (create_chunks_spec text chunk_size default_overlap Hne)
        as (_ & _ & _ & _ & Hchain & _).
Qed.

Lemma overlap_at_boundary_witness :
  Re.split_sentences (preprocess_text overlap_text)
  = ["A."; "B."; "C."] ++ "Dddddddddd." :: ["Eeeeeeeeee."; "F."]
  ∧ overflows 10 (chunk_loop 10 ["A."; "B."; "C."]) "Dddddddddd." = true
  ∧ current_chunk (chunk_loop 10 (["A."; "B."; "C."] ++ ["Dddddddddd."]))
    = "B. C. Dddddddddd.".
Proof.
  assert (H1 : Re.split_sentences (preprocess_text overlap_text)
               = ["A."; "B."; "C."] ++ "Dddddddddd." :: ["Eeeeeeeeee."; "F."])
    by (vm_compute; reflexivity).
  assert (H2 : overflows 10 (chunk_loop 10 ["A."; "B."; "C."]) "Dddddddddd." = true)
    by (vm_compute; reflexivity).
  split; [exact H1|]. split; [exact H2|].
  destruct (proj1 (overlap_at_boundary overlap_text 10) _ _ _ H1 H2)
    as (_ & Hmore & _).
  destruct Hmore as (front & a & b & Hbuf & Hcur & _); [vm_compute; lia|].
  rewrite Hcur.
  assert (Hab : [a; b] = ["B."; "C."]).
  { assert (Hl : last_two (sentence_buffer (chunk_loop 10 ["A."; "B."; "C."]))
                 = ["B."; "C."]) by (vm_compute; reflexivity).
    rewrite Hbuf in Hl. unfold last_two in Hl.
    rewrite length_app in Hl. simpl in Hl.
    replace (length front + 2 - 2) with (length front) in Hl by lia.
    by rewrite drop_app_length in Hl. }
  by injection Hab as -> ->.
Defined.

(** ** No sentence is lost *)

(** C6: when the cleaned text is not empty, the chunks emitted are the
    traced chunks, each the space-joined text of its sentences; the
    sentences of the chunks in order, without the sentences carried
    over, are exactly the sentences of the text; so every sentence of the
    text occurs in the text of an emitted chunk.  The first chunk
    carries nothing over. *)
Theorem sentences_preserved text chunk_size overlap :
  preprocess_text text ≠ EmptyString →
  let trace := chunk_trace text chunk_size in
  let sentences := Re.split_sentences (preprocess_text text) in
  create_chunks text chunk_size overlap = chunk_of_trace <$> trace
  ∧ concat (fresh_sentences <$> trace) = sentences
  ∧ (∀ t, head trace = Some t → tr_seed t = 0)
  ∧ (∀ s, s ∈ sentences →
          ∃ c, c ∈ create_chunks text chunk_size overlap
               ∧ Str.contains (chunk_text c) s = true).
Proof.
  intros Hne trace sentences.
  destruct (create_chunks_spec text chunk_size overlap Hne)
    as (Hout & Hcat & _ & _ & _ & Hfirst).
  fold trace in Hout, Hcat, Hfirst. split_and!; try done.
  intros s Hs. subst sentences. rewrite <- Hcat in Hs.
  apply list_elem_of_In, in_concat in Hs as (fresh & Hfresh & Hs).
  apply list_elem_of_In, list_elem_of_fmap in Hfresh as (t & -> & Ht).
  apply list_elem_of_In in Hs.
  exists (chunk_of_trace t). split.
  - rewrite Hout. by apply list_elem_of_fmap_2.
  - simpl. apply contains_join. by apply (subseteq_drop (tr_seed t)).
Qed.

Lemma sentences_preserved_witness :
  preprocess_text overlap_text ≠ EmptyString
  ∧ concat (fresh_sentences <$> chunk_trace overlap_text 10)
    = Re.split_sentences (preprocess_text overlap_text).
Proof.
  assert (H : preprocess_text overlap_text ≠ EmptyString) by (by vm_compute).
  split; [exact H|].
  exact (proj1 (proj2 (sentences_preserved overlap_text 10 default_overlap H))).
Defined.

(** ** Dictionaries *)

Lemma dict_get_set_fresh {V} (d : list (string * V)) key value :
  Dict.get d key = None → Dict.set d key value = d ++ [(key, value)].
Proof.
  induction d as [|[k v] d IH]; simpl; [done|].
  destruct (String.eqb k key); [done|].
  intros H. by rewrite IH.
Qed.

Lemma dict_get_app_Some {V} (d d' : list (string * V)) key v :
  Dict.get d key = Some v → Dict.get (d ++ d') key = Some v.
Proof.
  induction d as [|[k w] d IH]; simpl; [done|].
  by destruct (String.eqb k key).
Qed.

Lemma dict_get_snoc_fresh {V} (d : list (string * V)) key value :
  Dict.get d key = None → Dict.get (d ++ [(key, value)]) key = Some value.
Proof.
  induction d as [|[k w] d IH]; simpl.
  - by rewrite String.eqb_refl.
  - by destruct (String.eqb k key).
Qed.

(** ** What [add_document] does to the engine *)

Lemma add_document_text_fresh self document_text filename doc_id :
  Dict.get (documents self) doc_id = None →
  let n := length (create_chunks document_text default_chunk_size default_overlap) in
  add_document_text self document_text filename doc_id
  = ((doc_id, n),
     Engine (documents self ++ [(doc_id, document_entry filename document_text n)])
            (chunks self
             ++ imap (chunk_entry doc_id filename)
                  (create_chunks document_text default_chunk_size default_overlap))
            (api_key self) (api_url self)).
Proof.
  intros Hfresh n. unfold add_document_text.
  by rewrite dict_get_set_fresh.
Qed.

Lemma add_document_raise self file filename doc_id e self' :
  add_document self file filename doc_id = (Raise e, self') →
  self' = self ∧ ∃ message, extract_text_from_pdf file = Raise (Exception message).
Proof.
  unfold add_document.
  destruct (extract_text_from_pdf file) as [text|[message]].
  - destruct (add_document_text self text filename doc_id); intros [=].
  - intros [= _ <-]. eauto.
Qed.

Lemma add_document_ok self file filename doc_id r self' :
  add_document self file filename doc_id = (Ok r, self') →
  ∃ document_text,
    extract_text_from_pdf file = Ok document_text
    ∧ add_document_text self document_text filename doc_id = (r, self').
Proof.
  unfold add_document.
  destruct (extract_text_from_pdf file) as [text|[message]]; [|intros [=]].
  destruct (add_document_text self text filename doc_id) as [r0 s0] eqn:E.
  intros [= <- <-]. eauto.
Qed.

Lemma chunk_entry_doc_id doc_id filename (l : list chunk) c :
  c ∈ imap (chunk_entry doc_id filename) l → cd_doc_id c = doc_id.
Proof.
  intros [i [x [-> _]]]%elem_of_lookup_imap. done.
Qed.

Lemma consistent_add self document_text filename doc_id r self' :
  Dict.get (documents self) doc_id = None →
  add_document_text self document_text filename doc_id = (r, self') →
  chunk_count_consistent self → chunks_owned self →
  chunk_count_consistent self' ∧ chunks_owned self'.
Proof.
  intros Hfresh Hadd Hcount Hown.
  rewrite add_document_text_fresh in Hadd by done.
  injection Hadd as <- <-. split.
  - unfold chunk_count_consistent, Dict.values in *. simpl.
    rewrite length_app, length_imap, map_app, fmap_app, sum_list_with_app.
    rewrite Hcount. simpl. lia.
  - intros c. simpl. rewrite elem_of_app. intros [Hc|Hc].
    + destruct (Hown c Hc) as [d Hd].
      exists d. by apply dict_get_app_Some.
    + rewrite (chunk_entry_doc_id _ _ _ _ Hc).
      eexists. by apply dict_get_snoc_fresh.
Qed.

Lemma init_consistent env self :
  RAGEngine_init env = Ok self →
  documents self = [] ∧ chunks self = [].
Proof.
  unfold RAGEngine_init. destruct env as [key|]; [|done].
  destruct (Str.is_empty key); [done|]. by intros [= <-].
Qed.

(** ** Ingestion is all or nothing *)

Lemma dict_get_set {V} (d : list (string * V)) key value :
  Dict.get (Dict.set d key value) key = Some value.
Proof.
  induction d as [|[k v] d IH]; simpl.
  - by rewrite String.eqb_refl.
  - destruct (String.eqb k key) eqn:E; simpl; by rewrite E.
Qed.

Lemma extract_pages_blank page_num total_pages pages extracted_text :
  Forall blank_page pages →
  extract_pages page_num total_pages pages extracted_text = extracted_text.
Proof.
  intros Hall. revert page_num.
  induction Hall as [|p pages Hp _ IH]; intros page_num; simpl; [done|].
  destruct p as [page_text|]; [|apply IH].
  simpl in Hp. rewrite Hp. apply IH.
Qed.

(** Text that was extracted starts with the marker of a page. *)
Lemma extract_pages_marked pages : ∀ page_num total_pages extracted_text,
  extracted_text = EmptyString ∨ marked extracted_text →
  extract_pages page_num total_pages pages extracted_text = EmptyString
  ∨ marked (extract_pages page_num total_pages pages extracted_text).
Proof.
  induction pages as [|p pages IH]; intros page_num total_pages acc Hacc;
    simpl; [done|].
  apply IH. destruct p as [page_text|]; [|done].
  destruct (Str.is_empty (Str.strip page_text)); [done|]. right.
  destruct Hacc as [->|[rest ->]]; eexists; reflexivity.
Qed.

Lemma strip_marked s :
  marked s → ∃ rest, Str.strip s = String "-" rest.
Proof. intros [rest ->]. eexists. reflexivity. Qed.

Lemma extracted_text_dash file document_text :
  extract_text_from_pdf file = Ok document_text →
  ∃ rest, document_text = String "-" rest.
Proof.
  destruct file as [pages|message]; simpl; [|done].
  destruct (extract_pages_marked pages 0 (length pages) EmptyString)
    as [->|Hm]; [by left|done|].
  destruct (strip_marked _ Hm) as [rest ->]. simpl.
  intros [= <-]. by exists rest.
Qed.

Lemma preprocess_dash rest :
  preprocess_text (String "-" rest) ≠ EmptyString.
Proof. done. Qed.

(** Text that was extracted always yields a chunk. *)
Lemma extracted_text_chunks file document_text chunk_size overlap :
  extract_text_from_pdf file = Ok document_text →
  0 < length (create_chunks document_text chunk_size overlap).
Proof.
  intros [rest ->]%extracted_text_dash.
  pose proof (create_chunks_nonempty (String "-" rest) chunk_size overlap
                (preprocess_dash rest)) as Hne.
  destruct (create_chunks _ _ _); [done|simpl; lia].
Qed.

(** C1: a document for which chunk creation yields no chunk is
    refused, and nothing of it is stored.  When [create_chunks] gives no
    chunk for whatever is extracted from the file, [add_document] raises
    and leaves the engine as it was; for a file that opens the message
    is "No readable text found in the PDF file".  This is the case
    exactly of the files from which no text is extracted: text that was
    extracted starts with a page marker and always gives a chunk.
    Every call that raises leaves the engine as it was, and a call that
    returns has stored at least one chunk and the document with that
    count. *)
Theorem add_document_all_or_nothing self file filename doc_id :
  ((∀ document_text,
       extract_text_from_pdf file = Ok document_text →
       create_chunks document_text default_chunk_size default_overlap = []) →
   ∃ message,
     add_document self file filename doc_id
     = (Raise (Exception
                 ("Failed to add document " +:+ filename +:+ ": "
                  +:+ "PDF text extraction failed: " +:+ message)),
        self)
     ∧ get_document_stats (add_document self file filename doc_id).2
       = get_document_stats self
     ∧ (∀ pages, file = Pdf pages →
                 message = "No readable text found in the PDF file"))
  ∧ (∀ e self',
      add_document self file filename doc_id = (Raise e, self') →
      self' = self
      ∧ ∃ message,
          extract_text_from_pdf file = Raise (Exception message)
          ∧ e = Exception ("Failed to add document " +:+ filename +:+ ": "
                           +:+ message))
  ∧ (∀ pages,
      file = Pdf pages → Forall blank_page pages →
      add_document self file filename doc_id
      = (Raise (Exception
                  ("Failed to add document " +:+ filename +:+ ": "
                   +:+ "PDF text extraction failed: "
                   +:+ "No readable text found in the PDF file")),
         self))
  ∧ (∀ r self',
      add_document self file filename doc_id = (Ok r, self') →
      ∃ document_text,
        extract_text_from_pdf file = Ok document_text
        ∧ r = (doc_id,
               length (create_chunks document_text
                         default_chunk_size default_overlap))
        ∧ 0 < r.2
        ∧ chunks self'
          = chunks self
            ++ imap (chunk_entry doc_id filename)
                 (create_chunks document_text default_chunk_size default_overlap)
        ∧ Dict.get (documents self') doc_id
          = Some (document_entry filename document_text r.2)).
Proof.
  split_and!.
  - intros Hzero.
    assert (∀ document_text, extract_text_from_pdf file ≠ Ok document_text)
      as Hnone.
    { intros document_text Hext.
      pose proof (extracted_text_chunks file document_text
                    default_chunk_size default_overlap Hext) as Hpos.
      rewrite (Hzero document_text Hext) in Hpos. simpl in Hpos. lia. }
    destruct file as [pages|message].
    + exists "No readable text found in the PDF file".
      unfold add_document. unfold extract_text_from_pdf in *. cbv zeta in *.
      destruct (Str.is_empty (Str.strip _)) eqn:E.
      * done.
      * by destruct (Hnone _ eq_refl).
    + exists message. unfold add_document. simpl. split; [done|].
      split; [done|]. intros pages [=].
  - unfold add_document. intros e self'.
    destruct (extract_text_from_pdf file) as [text|[message]].
    + destruct (add_document_text self text filename doc_id); intros [=].
    + intros [= <- <-]. eauto.
  - intros pages -> Hblank. unfold add_document, extract_text_from_pdf.
    by rewrite extract_pages_blank.
  - intros r self' (text & Hext & Hadd)%add_document_ok.
    exists text. unfold add_document_text in Hadd.
    injection Hadd as <- <-. simpl. split_and!; try done.
    + by eapply extracted_text_chunks.
    + apply dict_get_set.
Qed.

Lemma add_document_all_or_nothing_witness :
  (∀ document_text,
      extract_text_from_pdf blank_pdf = Ok document_text →
      create_chunks document_text default_chunk_size default_overlap = [])
  ∧ ∃ message,
      add_document sample_engine blank_pdf "blank.pdf" "doc-2"
      = (Raise (Exception
                  ("Failed to add document " +:+ "blank.pdf" +:+ ": "
                   +:+ "PDF text extraction failed: " +:+ message)),
         sample_engine)
      ∧ get_document_stats
          (add_document sample_engine blank_pdf "blank.pdf" "doc-2").2
        = get_document_stats sample_engine
      ∧ (∀ pages, blank_pdf = Pdf pages →
                  message = "No readable text found in the PDF file").
Proof.
  assert (H : ∀ document_text,
             extract_text_from_pdf blank_pdf = Ok document_text →
             create_chunks document_text default_chunk_size default_overlap = []).
  { intros document_text Hext. vm_compute in Hext. discriminate Hext. }
  split; [exact H|].
  exact (proj1 (add_document_all_or_nothing
                  sample_engine blank_pdf "blank.pdf" "doc-2") H).
Defined.

(** ** The invariants of the knowledge base *)

(** C9: on every engine reached from a fresh one by calls of
    [add_document], the number of stored chunks is the sum of the chunk
    counts of the stored documents, and the document identifier of every
    stored chunk is a key of the stored documents; the counts that
    [get_document_stats] reports agree. *)
Theorem index_consistent self :
  reachable self →
  chunk_count_consistent self
  ∧ chunks_owned self
  ∧ total_chunks (get_document_stats self)
    = sum_list (doc_chunks <$> stats_documents (get_document_stats self)).
Proof.
  intros Hreach.
  assert (H : chunk_count_consistent self ∧ chunks_owned self).
  { induction Hreach
      as [env self Hinit|self file filename doc_id r self' _ IH Hfresh Hadd].
    - destruct (init_consistent _ _ Hinit) as [Hd Hc].
      unfold chunk_count_consistent, chunks_owned. rewrite Hd, Hc.
      split; [done|]. intros c Hc'. by apply elem_of_nil in Hc'.
    - destruct IH as [Hcount Hown]. destruct r as [r|e].
      + apply add_document_ok in Hadd as (text & _ & Hadd).
        by eapply consistent_add.
      + apply add_document_raise in Hadd as [-> _]. done. }
  destruct H as [Hcount Hown]. split_and!; [done|done|exact Hcount].
Qed.

Lemma sample_engine_reachable : reachable sample_engine.
Proof.
  apply (reachable_add fresh_engine sample_pdf "notes.pdf" "doc-1"
           (add_document fresh_engine sample_pdf "notes.pdf" "doc-1").1).
  - by apply (reachable_init (Some "test_key")).
  - reflexivity.
  - unfold sample_engine.
    by destruct (add_document fresh_engine sample_pdf "notes.pdf" "doc-1").
Qed.

Lemma index_consistent_witness :
  reachable sample_engine
  ∧ chunk_count_consistent sample_engine ∧ chunks_owned sample_engine.
Proof.
  split; [exact sample_engine_reachable|].
  destruct (index_consistent sample_engine sample_engine_reachable)
    as (Hcount & Hown & _).
  by split.
Defined.

(** ** Frame properties *)

(** C10: a call of [search_relevant_content] or [get_document_stats]
    leaves the engine as it was, and a successful [add_document] with an
    unused identifier only appends: the old entries of [self.chunks] and
    [self.documents] keep their places and their contents. *)
Theorem calls_preserve_index self :
  (∀ query max_results, (call self (CallSearch query max_results)).2 = self)
  ∧ (call self CallStats).2 = self
  ∧ (∀ file filename doc_id r self',
        Dict.get (documents self) doc_id = None →
        add_document self file filename doc_id = (Ok r, self') →
        (∃ new_chunks new_document,
            chunks self' = chunks self ++ new_chunks
            ∧ documents self' = documents self ++ [(doc_id, new_document)])
        ∧ (∀ i c, chunks self !! i = Some c → chunks self' !! i = Some c)
        ∧ (∀ i kd, documents self !! i = Some kd → documents self' !! i = Some kd)
        ∧ (∀ key d, Dict.get (documents self) key = Some d →
                    Dict.get (documents self') key = Some d)).
Proof.
  split; [done|]. split; [done|].
  intros file filename doc_id r self' Hfresh Hadd.
  apply add_document_ok in Hadd as (text & _ & Hadd).
  rewrite add_document_text_fresh in Hadd by done.
  injection Hadd as <- <-. simpl.
  split; [eauto|]. split; [|split].
  - intros i c Hi. by apply lookup_app_l_Some.
  - intros i kd Hi. by apply lookup_app_l_Some.
  - intros key d Hd. by apply dict_get_app_Some.
Qed.

Lemma calls_preserve_index_witness :
  (call sample_engine (CallSearch "mammals" 3)).2 = sample_engine
  ∧ (call sample_engine CallStats).2 = sample_engine
  ∧ (∀ i c, chunks sample_engine !! i = Some c →
            chunks (add_document sample_engine sample_pdf "more.pdf" "doc-2").2 !! i
            = Some c).
Proof.
  destruct (calls_preserve_index sample_engine) as (Hsearch & Hstats & Hadd).
  split; [apply Hsearch|]. split; [apply Hstats|].
  refine (proj1 (proj2
    (Hadd sample_pdf "more.pdf" "doc-2"
          ("doc-2", 1)
          (add_document sample_engine sample_pdf "more.pdf" "doc-2").2 _ _))).
  - reflexivity.
  - vm_compute. reflexivity.
Defined.

(** ** Binary64 *)

(** *** The order on floats that are not NaN *)

Ltac cmp_cases :=
  repeat match goal with
  | |- context [(?a ?= ?b)%Z] => destruct (Z.compare_spec a b)
  | H : context [(?a ?= ?b)%Z] |- _ => destruct (Z.compare_spec a b)
  | |- context [(?a ?= ?b)%positive] => destruct (Pos.compare_spec a b)
  | H : context [(?a ?= ?b)%positive] |- _ => destruct (Pos.compare_spec a b)
  end.

Ltac sf_cases :=
  unfold SFltb, SFleb, SFeqb, SFcompare, sf_nonneg in *;
  repeat match goal with
  | x : spec_float |- _ => destruct x as [[]|[]| |[] ? ?]
  end;
  simpl in *; try done; rewrite ?Pos.compare_cont_spec in *; simpl in *;
  cmp_cases; simpl in *; subst; try done; try lia.

Lemma SFltb_asym x y : SFltb x y = true → SFltb y x = false.
Proof. sf_cases. Qed.

Lemma SFeqb_not_ltb x y : SFeqb x y = true → SFltb y x = false.
Proof. sf_cases. Qed.

Lemma SFleb_ltb x y :
  sf_nonneg x → sf_nonneg y → SFleb y x = negb (SFltb x y).
Proof. sf_cases. Qed.

Lemma SFltb_negtrans x y z :
  sf_nonneg x → sf_nonneg y → sf_nonneg z →
  SFltb x y = false → SFltb y z = false → SFltb x z = false.
Proof. sf_cases. Qed.

(** *** Rounding never yields NaN *)

Lemma shr_1_nonneg mrs : (0 ≤ shr_m mrs)%Z → (0 ≤ shr_m (shr_1 mrs))%Z.
Proof.
  destruct mrs as [m r s]. destruct m as [|[p|p|]|[p|p|]]; simpl; lia.
Qed.

Lemma iter_pos_invariant {A} (P : A → Prop) (f : A → A) :
  (∀ x, P x → P (f x)) → ∀ p x, P x → P (SpecFloat.iter_pos f p x).
Proof.
  intros Hf. induction p as [p IH|p IH|]; intros x Hx; simpl; auto.
Qed.

Lemma shr_nonneg mrs e n :
  (0 ≤ shr_m mrs)%Z → (0 ≤ shr_m (shr mrs e n).1)%Z.
Proof.
  intros H. destruct n as [|p|p]; simpl; try done.
  by apply (iter_pos_invariant (λ r, (0 ≤ shr_m r)%Z)); [apply shr_1_nonneg|].
Qed.

Lemma shr_fexp_nonneg m e l :
  (0 ≤ m)%Z → (0 ≤ shr_m (shr_fexp prec emax m e l).1)%Z.
Proof.
  intros H. unfold shr_fexp. apply shr_nonneg.
  by destruct l as [|[]].
Qed.

Lemma round_nearest_even_nonneg m l :
  (0 ≤ m)%Z → (0 ≤ round_nearest_even m l)%Z.
Proof.
  intros H. destruct l as [|[]]; simpl; try done; [|lia].
  destruct (Z.even m); lia.
Qed.

Lemma binary_round_aux_signed sx mx ex lx :
  (0 ≤ mx)%Z → signed_as sx (binary_round_aux prec emax sx mx ex lx).
Proof.
  intros H. unfold binary_round_aux.
  pose proof (shr_fexp_nonneg mx ex lx H) as H1.
  destruct (shr_fexp prec emax mx ex lx) as [mrs' e']. simpl in H1.
  pose proof (shr_fexp_nonneg _ e' loc_Exact
                (round_nearest_even_nonneg _ (loc_of_shr_record mrs') H1)) as H2.
  destruct (shr_fexp prec emax _ e' loc_Exact) as [mrs'' e'']. simpl in H2.
  destruct (shr_m mrs'') as [|m|m]; simpl; [done| |lia].
  by destruct (e'' <=? emax - prec)%Z.
Qed.

Lemma binary_round_signed sx mx ex :
  signed_as sx (binary_round prec emax sx mx ex).
Proof.
  unfold binary_round.
  destruct (shl_align mx ex _) as [mz ez].
  by apply binary_round_aux_signed.
Qed.

Lemma signed_as_nonneg x : signed_as false x → sf_nonneg x.
Proof. destruct x as [[]|[]| |[] ? ?]; simpl; intros; done. Qed.

Lemma SFadd_nonneg x y :
  sf_nonneg x → sf_nonneg y → sf_nonneg (SF64add x y).
Proof.
  destruct x as [[]|[]| |[] mx ex], y as [[]|[]| |[] my ey]; simpl; try done.
  intros _ _. apply signed_as_nonneg.
  destruct (shl_align mx ex (Z.min ex ey)) as [mx' ex'].
  destruct (shl_align my ey (Z.min ex ey)) as [my' ey']. simpl.
  apply binary_round_signed.
Qed.

Lemma SFdiv_nonneg x y :
  sf_positive x → sf_positive y → sf_nonneg (SF64div x y).
Proof.
  destruct x as [[]|[]| |[] mx ex], y as [[]|[]| |[] my ey]; simpl; try done.
  intros _ _. apply signed_as_nonneg.
  unfold SFdiv_core_binary.
  set (m' := match _ with Z0 => _ | Zpos _ => _ | Zneg _ => _ end).
  assert (Hm : (0 ≤ m')%Z).
  { subst m'. destruct (_ - _ - _)%Z; try lia.
    apply Z.shiftl_nonneg. lia. }
  pose proof (Z.div_eucl_eq m' (Zpos my)) as Heq.
  pose proof (Z.mod_pos_bound m' (Zpos my)) as Hmod.
  unfold Z.modulo in Hmod.
  destruct (Z.div_eucl m' (Zpos my)) as [q r].
  apply binary_round_aux_signed. nia.
Qed.

(** *** Lengths as floats *)

Lemma digits2_pos_size p : digits2_pos p = Pos.size p.
Proof. induction p; simpl; congruence. Qed.

Lemma digits2_pos_bound p :
  (Zpos p < 2 ^ 53)%Z → (Zpos (digits2_pos p) ≤ 53)%Z.
Proof.
  intros Hp. rewrite digits2_pos_size.
  pose proof (Pos.size_le p) as Hle.
  apply Pos2Z.pos_le_pos in Hle. rewrite Pos2Z.inj_pow in Hle.
  destruct (Z.le_gt_cases (Zpos (Pos.size p)) 53) as [|Hgt]; [done|].
  assert (2 ^ 54 ≤ 2 ^ Zpos (Pos.size p))%Z by (apply Z.pow_le_mono_r; lia).
  assert (Zpos p~0 = 2 * Zpos p)%Z by done.
  change (2 ^ 54)%Z with (2 * 2 ^ 53)%Z in *. lia.
Qed.

Lemma digits2_pos_shift p k :
  digits2_pos (Pos.iter xO p k) = (digits2_pos p + k)%positive.
Proof.
  induction k as [|k IH] using Pos.peano_ind.
  - simpl. by rewrite Pos.add_1_r.
  - rewrite Pos.iter_succ. simpl. by rewrite IH, Pos.add_succ_r.
Qed.

Lemma binary_round_aux_exact mz ez :
  digits2_pos mz = 53%positive → (-1074 ≤ ez ≤ 971)%Z →
  binary_round_aux prec emax false (Zpos mz) ez loc_Exact
  = S754_finite false mz ez.
Proof.
  intros Hd He.
  assert (Hshift : (fexp prec emax (Zpos (digits2_pos mz) + ez) - ez = 0)%Z).
  { rewrite Hd. unfold fexp, emin, prec, emax. lia. }
  unfold binary_round_aux, shr_fexp. simpl Zdigits2. rewrite Hshift. simpl.
  rewrite Hshift. simpl.
  destruct (Z.leb_spec ez (emax - prec)); [done|].
  unfold emax, prec in *. lia.
Qed.

Lemma binary_round_small p :
  (Zpos p < 2 ^ 53)%Z → sf_positive (binary_round prec emax false p 0).
Proof.
  intros Hp. pose proof (digits2_pos_bound p Hp) as Hd.
  unfold binary_round.
  assert (Hfexp : (fexp prec emax (Zpos (digits2_pos p) + 0)
                   = Zpos (digits2_pos p) - 53)%Z).
  { unfold fexp, emin, prec, emax. lia. }
  rewrite Hfexp. unfold shl_align.
  destruct (Zpos (digits2_pos p) - 53 - 0)%Z as [|k|k] eqn:Hk; [|lia|].
  - rewrite binary_round_aux_exact; [done| |lia].
    apply Pos2Z.inj. lia.
  - rewrite binary_round_aux_exact; [done| |lia].
    rewrite digits2_pos_shift. apply Pos2Z.inj. rewrite Pos2Z.inj_add. lia.
Qed.

Lemma float_of_nat_positive n :
  0 < n → (Z.of_nat n < 2 ^ 53)%Z → sf_positive (Prim2SF (float_of_nat n)).
Proof.
  intros Hn Hlt. unfold float_of_nat.
  rewrite of_uint63_spec, Uint63.of_Z_spec.
  rewrite Z.mod_small.
  - destruct (Z.of_nat n) as [|p|p] eqn:E; [lia| |lia].
    simpl. by apply binary_round_small.
  - split; [lia|]. eapply Z.lt_trans; [exact Hlt|done].
Qed.

(** *** The floats of the scores *)

Lemma ltb_asym x y : (x <? y)%float = true → (y <? x)%float = false.
Proof. rewrite !FloatAxioms.ltb_spec. apply SFltb_asym. Qed.

Lemma eqb_not_ltb x y : (x =? y)%float = true → (y <? x)%float = false.
Proof. rewrite FloatAxioms.eqb_spec, FloatAxioms.ltb_spec. apply SFeqb_not_ltb. Qed.

Lemma leb_not_ltb x y :
  nonneg x → nonneg y → (y <=? x)%float = negb (x <? y)%float.
Proof. rewrite FloatAxioms.leb_spec, FloatAxioms.ltb_spec. apply SFleb_ltb. Qed.

Lemma ltb_negtrans x y z :
  nonneg x → nonneg y → nonneg z →
  (x <? y)%float = false → (y <? z)%float = false → (x <? z)%float = false.
Proof. rewrite !FloatAxioms.ltb_spec. apply SFltb_negtrans. Qed.

Lemma add_nonneg x y : nonneg x → nonneg y → nonneg (x + y)%float.
Proof. unfold nonneg. rewrite FloatAxioms.add_spec. apply SFadd_nonneg. Qed.

Lemma py_min_nonneg x y : nonneg x → nonneg y → nonneg (py_min x y).
Proof. intros Hx Hy. unfold py_min. by destruct (y <? x)%float. Qed.

Lemma ratio_nonneg a n :
  0 < a → a ≤ n → (Z.of_nat n < 2 ^ 53)%Z →
  nonneg (float_of_nat a / float_of_nat n)%float.
Proof.
  intros Ha Hn Hlt. unfold nonneg. rewrite FloatAxioms.div_spec.
  apply SFdiv_nonneg; apply float_of_nat_positive; lia.
Qed.

Lemma score_chunk_nonneg query_lower query_words chunk r :
  (Z.of_nat (size query_words) < 2 ^ 53)%Z →
  score_chunk query_lower query_words chunk = Some r →
  nonneg (similarity_score r).
Proof.
  intros Hlt. unfold score_chunk.
  set (common_words := query_words ∩ word_set (cd_text_lower chunk)).
  destruct (decide (common_words = ∅)) as [|Hne]; [done|].
  intros [= <-]. simpl.
  assert (Hpos : 0 < size common_words).
  { apply Nat.neq_0_lt_0. intros H0. apply Hne.
    by apply leibniz_equiv, size_empty_iff. }
  assert (Hle : size common_words ≤ size query_words).
  { apply subseteq_size, intersection_subseteq_l. }
  apply py_min_nonneg; [|by vm_compute].
  apply add_nonneg; [apply add_nonneg|].
  - by apply ratio_nonneg.
  - destruct (Str.contains _ _); by vm_compute.
  - destruct (1 <? _); by vm_compute.
Qed.

(** ** Sorting by score *)

Section SortDesc.
Context {A : Type} (key : A → float).

Lemma insert_desc_perm x l : insert_desc key x l ≡ₚ x :: l.
Proof.
  induction l as [|y l IH]; simpl; [done|].
  destruct (key x <? key y)%float; [|done].
  rewrite IH. apply Permutation_swap.
Qed.

Lemma sort_desc_perm l : sort_desc key l ≡ₚ l.
Proof.
  induction l as [|x l IH]; simpl; [done|].
  by rewrite insert_desc_perm, IH.
Qed.

Lemma insert_desc_sorted x l :
  nonneg (key x) → Forall (λ y, nonneg (key y)) l →
  StronglySorted (descending key) l → StronglySorted (descending key) (insert_desc key x l).
Proof.
  intros Hx Hl Hs. induction Hs as [|y l Hs IH Hy]; simpl.
  - repeat constructor.
  - apply Forall_cons in Hl as [Hny Hl].
    destruct (key x <? key y)%float eqn:Hlt.
    + constructor; [by apply IH|].
      rewrite insert_desc_perm. constructor; [|done].
      unfold descending. rewrite leb_not_ltb by done.
      by rewrite (ltb_asym _ _ Hlt).
    + constructor; [by constructor|].
      constructor.
      * unfold descending. rewrite leb_not_ltb by done. by rewrite Hlt.
      * rewrite Forall_forall in Hy, Hl |- *. intros z Hz.
        specialize (Hy z Hz). specialize (Hl z Hz).
        unfold descending in *. rewrite leb_not_ltb in Hy |- * by done.
        apply negb_true_iff in Hy. apply negb_true_iff.
        by apply (ltb_negtrans _ (key y)).
Qed.

Lemma sort_desc_sorted l :
  Forall (λ y, nonneg (key y)) l → StronglySorted (descending key) (sort_desc key l).
Proof.
  induction l as [|x l IH]; simpl; [constructor|].
  intros [Hx Hl]%Forall_cons. apply insert_desc_sorted; [done| |by apply IH].
  by rewrite sort_desc_perm.
Qed.

(** Stability: an entry stands before an entry that came before it
    only when its key is greater. *)
Context (pos : A → nat).

Lemma insert_desc_stable x l :
  Forall (in_order pos x) l → StronglySorted (stably key pos) l →
  StronglySorted (stably key pos) (insert_desc key x l).
Proof.
  intros Hx Hs. induction Hs as [|y l Hs IH Hy]; simpl.
  - repeat constructor.
  - apply Forall_cons in Hx as [Hxy Hxl].
    destruct (key x <? key y)%float eqn:Hlt.
    + constructor; [by apply IH|].
      rewrite insert_desc_perm. constructor; [by right|done].
    + constructor; [by constructor|].
      constructor; [by left|].
      eapply Forall_impl; [exact Hxl|]. intros z Hz. by left.
Qed.

Lemma sort_desc_stable l :
  StronglySorted (in_order pos) l →
  StronglySorted (stably key pos) (sort_desc key l).
Proof.
  induction 1 as [|x l Hs IH Hx]; simpl; [constructor|].
  apply insert_desc_stable; [|done]. by rewrite sort_desc_perm.
Qed.

End SortDesc.

Lemma insert_desc_fmap {A B} (f : A → B) (key : B → float) x s :
  f <$> insert_desc (λ a, key (f a)) x s = insert_desc key (f x) (f <$> s).
Proof.
  induction s as [|y s IHs]; [done|].
  rewrite fmap_cons. simpl insert_desc.
  destruct (key (f x) <? key (f y))%float; [|done].
  by rewrite fmap_cons, IHs.
Qed.

Lemma sort_desc_cons {A} (key : A → float) x l :
  sort_desc key (x :: l) = insert_desc key x (sort_desc key l).
Proof. done. Qed.

Lemma sort_desc_fmap {A B} (f : A → B) (key : B → float) l :
  f <$> sort_desc (λ a, key (f a)) l = sort_desc key (f <$> l).
Proof.
  induction l as [|x l IH]; [done|].
  rewrite fmap_cons, !sort_desc_cons, insert_desc_fmap. by rewrite IH.
Qed.

Lemma StronglySorted_lookup {A} (R : A → A → Prop) l i j a b :
  StronglySorted R l → i < j → l !! i = Some a → l !! j = Some b → R a b.
Proof.
  intros Hs. revert i j. induction Hs as [|x l Hs IH Hx]; intros i j Hij Hi Hj.
  - done.
  - destruct j as [|j]; [lia|]. simpl in Hj. destruct i as [|i].
    + simpl in Hi. injection Hi as <-.
      rewrite Forall_forall in Hx. apply Hx.
      by eapply list_elem_of_lookup_2.
    + simpl in Hi. apply (IH i j); [lia|done|done].
Qed.

Lemma slice_to_nonneg {A} (n : Z) (l : list A) :
  (0 ≤ n)%Z → slice_to n l = take (Z.to_nat n) l.
Proof. intros Hn. unfold slice_to. by rewrite (proj2 (Z.leb_le 0 n)). Qed.

Lemma slice_to_take {A} (n : Z) (l : list A) : ∃ k, slice_to n l = take k l.
Proof. unfold slice_to. destruct (0 <=? n)%Z; eauto. Qed.

(** ** [sort_desc] is the stable descending sort

    Whatever algorithm [list.sort] runs, a permutation of the input that
    is descending and stable is the list [sort_desc] returns. *)

Lemma StronglySorted_and {A} (R1 R2 : A → A → Prop) l :
  StronglySorted R1 l → StronglySorted R2 l →
  StronglySorted (λ a b, R1 a b ∧ R2 a b) l.
Proof.
  induction l as [|x l IH]; [constructor|].
  intros [H1 Hs1]%StronglySorted_cons [H2 Hs2]%StronglySorted_cons.
  constructor; [by apply IH|].
  apply Forall_forall. intros y Hy. split.
  - by apply (proj1 (Forall_forall _ _) H1).
  - by apply (proj1 (Forall_forall _ _) H2).
Qed.

Lemma sort_desc_unique {A} (key : A → float) (pos : A → nat) (l l' : list A) :
  Forall (λ y, nonneg (key y)) l →
  StronglySorted (in_order pos) l →
  l' ≡ₚ l →
  StronglySorted (descending key) l' →
  StronglySorted (stably key pos) l' →
  l' = sort_desc key l.
Proof.
  intros Hnn Hpos Hperm Hdesc Hstable.
  apply (StronglySorted_unique_strong
           (λ a b, descending key a b ∧ stably key pos a b)).
  - intros x1 x2 Hx1 Hx2 [Hd12 Hs12] [Hd21 Hs21]. exfalso.
    rewrite Hperm in Hx1. rewrite sort_desc_perm in Hx2.
    pose proof (proj1 (Forall_forall _ _) Hnn _ Hx1) as Hn1.
    pose proof (proj1 (Forall_forall _ _) Hnn _ Hx2) as Hn2.
    unfold descending in Hd12, Hd21.
    rewrite leb_not_ltb in Hd12, Hd21 by done.
    apply negb_true_iff in Hd12, Hd21.
    destruct Hs12 as [H12|H12]; [|congruence].
    destruct Hs21 as [H21|H21]; [lia|congruence].
  - by apply StronglySorted_and.
  - apply StronglySorted_and.
    + by apply sort_desc_sorted.
    + by apply sort_desc_stable.
  - by rewrite sort_desc_perm.
Qed.

(** ** The search and its ghost positions *)

Lemma omap_cons {A B} (f : A → option B) x l :
  omap f (x :: l)
  = match f x with Some y => y :: omap f l | None => omap f l end.
Proof. done. Qed.

Lemma scored_sorted query_lower query_words (l : list (nat * chunk_data)) :
  StronglySorted (in_order fst) l →
  StronglySorted (in_order fst) (omap (scored_at query_lower query_words) l).
Proof.
  induction 1 as [|[i c] l Hs IH Hx]; [constructor|].
  rewrite omap_cons. unfold scored_at at 1. simpl.
  destruct (score_chunk query_lower query_words c) as [r|]; simpl; [|done].
  constructor; [done|].
  pose proof (proj1 (Forall_forall _ _) Hx) as Hx'.
  apply Forall_forall. intros [j r'] Hj.
  apply list_elem_of_omap in Hj as ([j' c'] & Hin & Hsc).
  unfold scored_at in Hsc. simpl in Hsc.
  destruct (score_chunk query_lower query_words c'); [|done].
  injection Hsc as -> ->. exact (Hx' _ Hin).
Qed.

Lemma positions_sorted (l : list chunk_data) k :
  StronglySorted (in_order fst) (imap (λ i c, (k + i, c)) l).
Proof.
  revert k. induction l as [|c l IH]; intros k; [constructor|].
  rewrite imap_cons.
  assert (Heq : imap ((λ i c0, (k + i, c0)) ∘ S) l
                = imap (λ i c0, (S k + i, c0)) l).
  { apply imap_ext. intros i x _. simpl. f_equal. lia. }
  rewrite Heq. constructor; [apply IH|].
  apply Forall_forall. intros [j c'] Hj.
  apply elem_of_lookup_imap in Hj as (j' & c'' & [= -> ->] & _).
  unfold in_order. simpl. lia.
Qed.

Lemma positions_fmap (l : list chunk_data) : (imap pair l).*2 = l.
Proof.
  apply list_eq. intros i.
  rewrite list_lookup_fmap, list_lookup_imap.
  by destruct (l !! i).
Qed.

Lemma scored_fmap query_lower query_words (l : list (nat * chunk_data)) :
  (omap (scored_at query_lower query_words) l).*2
  = omap (score_chunk query_lower query_words) l.*2.
Proof.
  induction l as [|[i c] l IH]; [done|].
  rewrite fmap_cons, !omap_cons. unfold scored_at at 1.
  change ((i, c).2) with c.
  destruct (score_chunk query_lower query_words c); [|exact IH].
  change ((λ r, ((i, c).1, r)) <$> Some s) with (Some (i, s)).
  cbv beta iota. rewrite fmap_cons. f_equal. exact IH.
Qed.

Lemma slice_to_nil {A} (n : Z) : slice_to n (@nil A) = [].
Proof. unfold slice_to. destruct (0 <=? n)%Z; apply take_nil. Qed.

(** The search returns the entries of [ranked], cut to [max_results]. *)
Lemma search_ranked self query max_results :
  search_relevant_content self query max_results
  = slice_to max_results (ranked self query).*2.
Proof.
  unfold search_relevant_content, ranked.
  destruct (decide (word_set (Str.lower query) = ∅)) as [He|Hne].
  - rewrite fmap_nil, slice_to_nil. by destruct (chunks self).
  - rewrite (sort_desc_fmap snd similarity_score), scored_fmap, positions_fmap.
    destruct (chunks self) eqn:E; [|done].
    change (omap (score_chunk (Str.lower query) (word_set (Str.lower query))) [])
      with (@nil scored_chunk).
    change (sort_desc similarity_score []) with (@nil scored_chunk).
    by rewrite slice_to_nil.
Qed.

Lemma score_chunk_spec query chunk r :
  score_chunk (Str.lower query) (query_tokens query) chunk = Some r →
  common_tokens query chunk ≠ ∅
  ∧ similarity_score r = capped_score query chunk
  ∧ sc_text r = cd_text chunk
  ∧ sc_filename r = cd_filename chunk
  ∧ sc_chunk_index r = cd_chunk_index chunk
  ∧ matching_words r = elements (common_tokens query chunk).
Proof.
  unfold score_chunk. fold (common_tokens query chunk).
  destruct (decide (common_tokens query chunk = ∅)); [done|].
  by intros [= <-].
Qed.

Lemma score_chunk_common query chunk :
  common_tokens query chunk ≠ ∅ →
  is_Some (score_chunk (Str.lower query) (query_tokens query) chunk).
Proof.
  intros Hne. unfold score_chunk. fold (common_tokens query chunk).
  by destruct (decide (common_tokens query chunk = ∅)).
Qed.

Lemma ranked_elem self query i r :
  (i, r) ∈ ranked self query ↔
  query_tokens query ≠ ∅
  ∧ ∃ chunk, chunks self !! i = Some chunk
             ∧ score_chunk (Str.lower query) (query_tokens query) chunk = Some r.
Proof.
  unfold ranked. fold (query_tokens query).
  destruct (decide (query_tokens query = ∅)) as [He|Hne].
  - split; [by intros ?%elem_of_nil|by intros [? _]].
  - rewrite sort_desc_perm, list_elem_of_omap. split.
    + intros ([j c] & Hin & Hsc). split; [done|].
      apply elem_of_lookup_imap in Hin as (j' & c' & [= -> ->] & Hj).
      unfold scored_at in Hsc. simpl in Hsc.
      destruct (score_chunk _ _ c') as [r'|] eqn:E; [|done].
      injection Hsc as -> ->. eauto.
    + intros (_ & c & Hi & Hsc). exists (i, c). split.
      * by apply (elem_of_lookup_imap_2 pair).
      * unfold scored_at. simpl. by rewrite Hsc.
Qed.

(** ** The scoring rule *)

(** C2: for a query with a word, the entries scored are exactly those of
    the stored chunks that share a word with the query; the score of
    such a chunk is [min(base + phrase + sequence, 1.0)], and every
    entry returned is one of them. *)
Theorem score_formula self query max_results :
  query_tokens query ≠ ∅ →
  search_relevant_content self query max_results
  = slice_to max_results (ranked self query).*2
  ∧ (∀ i r, (i, r) ∈ ranked self query →
       ∃ chunk,
         chunks self !! i = Some chunk
         ∧ common_tokens query chunk ≠ ∅
         ∧ similarity_score r = capped_score query chunk
         ∧ sc_text r = cd_text chunk
         ∧ sc_filename r = cd_filename chunk
         ∧ sc_chunk_index r = cd_chunk_index chunk)
  ∧ (∀ i chunk, chunks self !! i = Some chunk →
       common_tokens query chunk ≠ ∅ → ∃ r, (i, r) ∈ ranked self query)
  ∧ (∀ r, r ∈ search_relevant_content self query max_results →
       ∃ i, (i, r) ∈ ranked self query).
Proof.
  intros Hq. split_and!.
  - apply search_ranked.
  - intros i r (_ & chunk & Hi & Hsc)%ranked_elem.
    apply score_chunk_spec in Hsc as (? & ? & ? & ? & ? & _).
    by exists chunk.
  - intros i chunk Hi Hcommon.
    destruct (score_chunk_common query chunk Hcommon) as [r Hr].
    exists r. apply ranked_elem. eauto.
  - intros r. rewrite search_ranked.
    destruct (slice_to_take max_results (ranked self query).*2) as [k ->].
    intros Hr%(subseteq_take k).
    apply list_elem_of_fmap in Hr as ([i r'] & -> & Hin). by exists i.
Qed.

Lemma score_formula_witness :
  query_tokens "physics concepts" ≠ ∅
  ∧ search_relevant_content physics_engine "physics concepts" 3
    = slice_to 3 (ranked physics_engine "physics concepts").*2.
Proof.
  assert (H : query_tokens "physics concepts" ≠ ∅).
  { intros H%(f_equal size). by vm_compute in H. }
  split; [exact H|].
  exact (proj1 (score_formula physics_engine "physics concepts" 3 H)).
Defined.

(** ** The order of the results *)

Lemma ranked_nonneg self query :
  (Z.of_nat (size (query_tokens query)) < 2 ^ 53)%Z →
  Forall (λ ir : nat * scored_chunk, nonneg (similarity_score ir.2))
         (omap (scored_at (Str.lower query) (query_tokens query))
               (imap pair (chunks self))).
Proof.
  intros Hlt. apply Forall_forall. intros [i r] Hin.
  apply list_elem_of_omap in Hin as ([j c] & _ & Hsc).
  unfold scored_at in Hsc. simpl in Hsc.
  destruct (score_chunk _ _ c) as [r'|] eqn:E; [|done].
  injection Hsc as _ ->. by eapply score_chunk_nonneg.
Qed.

Lemma slice_to_fmap {A B} (f : A → B) (n : Z) (l : list A) :
  f <$> slice_to n l = slice_to n (f <$> l).
Proof.
  unfold slice_to. rewrite length_fmap.
  destruct (0 <=? n)%Z; apply fmap_take.
Qed.

Lemma slice_to_lookup {A} (n : Z) (l : list A) k x :
  slice_to n l !! k = Some x → l !! k = Some x.
Proof.
  destruct (slice_to_take n l) as [k' ->].
  by intros [? _]%lookup_take_Some.
Qed.

(** C5: the results are the entries of [ranked] up to the limit, each
    made from the stored chunk at its position.  Among them a later entry
    never has a greater score (for a query of fewer than [2^53] distinct
    words, where lengths are exact as floats), and entries of equal score
    stand in the order of their chunks in the index.  For a limit that is
    not negative there are at most [max_results] of them. *)
Theorem results_ranked self query max_results :
  let found := slice_to max_results (ranked self query) in
  search_relevant_content self query max_results = found.*2
  ∧ (∀ i r, (i, r) ∈ found →
       ∃ chunk, chunks self !! i = Some chunk
                ∧ score_chunk (Str.lower query) (query_tokens query) chunk
                  = Some r)
  ∧ (∀ k1 k2 i1 r1 i2 r2,
       k1 < k2 → found !! k1 = Some (i1, r1) → found !! k2 = Some (i2, r2) →
       ((Z.of_nat (size (query_tokens query)) < 2 ^ 53)%Z →
        (similarity_score r2 <=? similarity_score r1)%float = true)
       ∧ ((similarity_score r1 =? similarity_score r2)%float = true → i1 < i2))
  ∧ ((0 ≤ max_results)%Z →
     (Z.of_nat (length (search_relevant_content self query max_results))
      ≤ max_results)%Z).
Proof.
  intros found.
  assert (Hsearch : search_relevant_content self query max_results = found.*2).
  { rewrite search_ranked. subst found. by rewrite slice_to_fmap. }
  split_and!.
  - done.
  - intros i r Hin. subst found.
    destruct (slice_to_take max_results (ranked self query)) as [k Hk].
    rewrite Hk in Hin. apply (subseteq_take k) in Hin.
    by apply ranked_elem in Hin as [_ ?].
  - intros k1 k2 i1 r1 i2 r2 Hk H1%slice_to_lookup H2%slice_to_lookup.
    unfold ranked in H1, H2. fold (query_tokens query) in H1, H2.
    destruct (decide (query_tokens query = ∅)); [done|].
    split.
    + intros Hlt.
      exact (StronglySorted_lookup _ _ _ _ _ _
               (sort_desc_sorted _ _ (ranked_nonneg self query Hlt)) Hk H1 H2).
    + intros Heq.
      destruct (StronglySorted_lookup _ _ _ _ _ _
                  (sort_desc_stable (λ ir, similarity_score ir.2) fst _
                     (scored_sorted _ _ _ (positions_sorted (chunks self) 0)))
                  Hk H1 H2) as [Hpos|Hgt]; [done|].
      simpl in Hgt. by rewrite (eqb_not_ltb _ _ Heq) in Hgt.
  - intros Hmax. rewrite Hsearch, length_fmap. subst found.
    rewrite slice_to_nonneg, length_take by done. lia.
Qed.

Lemma results_ranked_witness :
  (Z.of_nat (size (query_tokens "physics concepts")) < 2 ^ 53)%Z
  ∧ (0 ≤ 3)%Z
  ∧ search_relevant_content physics_engine "physics concepts" 3
    = (slice_to 3 (ranked physics_engine "physics concepts")).*2
  ∧ (Z.of_nat (length (search_relevant_content
                         physics_engine "physics concepts" 3)) ≤ 3)%Z
  ∧ (∀ i1 r1 i2 r2,
       slice_to 3 (ranked physics_engine "physics concepts") !! 0 = Some (i1, r1) →
       slice_to 3 (ranked physics_engine "physics concepts") !! 2 = Some (i2, r2) →
       (similarity_score r2 <=? similarity_score r1)%float = true).
Proof.
  assert (H1 : (Z.of_nat (size (query_tokens "physics concepts")) < 2 ^ 53)%Z)
    by (by vm_compute).
  assert (H2 : (0 ≤ 3)%Z) by lia.
  destruct (results_ranked physics_engine "physics concepts" 3)
    as (Hfound & _ & Horder & Hlen).
  split; [exact H1|]. split; [exact H2|]. split; [exact Hfound|].
  split; [exact (Hlen H2)|].
  intros i1 r1 i2 r2 Hk1 Hk2.
  apply (proj1 (Horder 0 2 i1 r1 i2 r2 (Nat.lt_0_succ 1) Hk1 Hk2) H1).
Defined.

(** ** Queries without a word *)

(** C7: when the lowercased query contains no word, the search returns
    the empty list; the function is total and its result type has no
    error case. *)
Theorem search_without_words self query max_results :
  word_set (Str.lower query) = ∅ →
  search_relevant_content self query max_results = [].
Proof.
  intros Hq. unfold search_relevant_content.
  destruct (chunks self); [done|].
  by destruct (decide (word_set (Str.lower query) = ∅)).
Qed.

Lemma search_without_words_witness :
  word_set (Str.lower "  ?! ") = ∅
  ∧ search_relevant_content sample_engine "  ?! " 3 = [].
Proof.
  assert (H : word_set (Str.lower "  ?! ") = ∅) by (vm_compute; reflexivity).
  split; [exact H|].
  exact (search_without_words sample_engine "  ?! " 3 H).
Defined.

(** ** Answers without context *)

(** C8: when the search for the question returns nothing,
    [generate_answer] returns the fixed answer, with no sources and
    [context_used = 0], without calling the generation service: the
    computation is a bare [Ret], and no prompt is sent whatever the
    service would do. *)
Theorem generate_answer_without_context self question complexity_level :
  search_relevant_content self question 3 = [] →
  generate_answer self question complexity_level = Ret (Ok no_information_answer)
  ∧ sources no_information_answer = []
  ∧ context_used no_information_answer = 0
  ∧ ∀ service,
      run_io service (generate_answer self question complexity_level)
      = (Ok no_information_answer, []).
Proof.
  intros Hsearch. unfold generate_answer. rewrite Hsearch. done.
Qed.

Lemma generate_answer_without_context_witness :
  search_relevant_content sample_engine "quantum entanglement" 3 = []
  ∧ generate_answer sample_engine "quantum entanglement" "beginner"
    = Ret (Ok no_information_answer).
Proof.
  assert (H : search_relevant_content sample_engine "quantum entanglement" 3 = [])
    by (vm_compute; reflexivity).
  split; [exact H|].
  exact (proj1 (generate_answer_without_context
                  sample_engine "quantum entanglement" "beginner" H)).
Defined.

(** ** Runs on sample data *)

Example chunks_of_three_sentences :
  create_chunks "Cats are mammals. Dogs are mammals too. Birds can fly."
                30 default_overlap
  = [Chunk "Cats are mammals." 17 1;
     Chunk "Dogs are mammals too." 21 1;
     Chunk "Birds can fly." 14 1].
Proof. by vm_compute. Qed.

Example preprocess_messy_text :
  preprocess_text
    ("This    is   a  test!!!   With    weird   spacing" +:+ Str.nl +:+ Str.nl
     +:+ "and multiple" +:+ String (Ascii.ascii_of_nat 9) "lines. <@>")
  = "This is a test!!! With weird spacing and multiple lines.".
Proof. by vm_compute. Qed.

Example ranked_physics :
  (ranked physics_engine "physics concepts").*1 = [0; 2; 3]
  ∧ (similarity_score <$> search_relevant_content physics_engine "physics concepts" 3)
    = [1%float; 1%float; 0.5%float].
Proof. split; by vm_compute. Qed.

Example slice_to_negative : slice_to (-1) [10; 20; 30] = [10; 20].
Proof. by vm_compute. Qed.

(** ** The words of a text *)

Lemma findall_go_nil word : Re.findall_go word EmptyString = flush word.
Proof. by destruct word. Qed.

Lemma findall_go_word word c r :
  Char.is_word c = true →
  Re.findall_go word (String c r) = Re.findall_go (c :: word) r.
Proof. intros H. simpl. by rewrite H. Qed.

Lemma findall_go_sep word c r :
  Char.is_word c = false →
  Re.findall_go word (String c r) = flush word ++ Re.findall_go [] r.
Proof. intros H. simpl. rewrite H. by destruct word. Qed.

(** A character that is no word character separates the words before it
    from the words after it. *)
Lemma findall_go_append word a c b :
  Char.is_word c = false →
  Re.findall_go word (a +:+ String c b)
  = Re.findall_go word a ++ Re.findall_go [] b.
Proof.
  intros Hc. revert word. induction a as [|x a IH]; intros word.
  - by rewrite append_nil, findall_go_nil, findall_go_sep.
  - rewrite append_cons. destruct (Char.is_word x) eqn:Hx.
    + by rewrite !findall_go_word.
    + rewrite !findall_go_sep by done. by rewrite IH, app_assoc.
Qed.

Lemma findall_words_append a c b :
  Char.is_word c = false →
  Re.findall_words (a +:+ String c b)
  = Re.findall_words a ++ Re.findall_words b.
Proof. apply findall_go_append. Qed.

Lemma space_not_word c : Char.is_space c = true → Char.is_word c = false.
Proof.
  destruct c as [[] [] [] [] [] [] [] []]; simpl; intros H;
    try discriminate H; reflexivity.
Qed.

Lemma findall_words_join l :
  Re.findall_words (Str.join " " l) = concat (Re.findall_words <$> l).
Proof.
  induction l as [|p l IH]; [done|].
  destruct l as [|q l].
  - simpl. by rewrite app_nil_r.
  - rewrite join_cons by done.
    change (" " +:+ Str.join " " (q :: l))
      with (String " " (Str.join " " (q :: l))).
    rewrite findall_words_append by done. by rewrite IH.
Qed.

(** The passes of [preprocess_text] leave the words as they are. *)
Lemma findall_collapse_whitespace s : ∀ word,
  Re.findall_go word (Re.collapse_whitespace false s) = Re.findall_go word s
  ∧ Re.findall_go [] (Re.collapse_whitespace true s) = Re.findall_go [] s.
Proof.
  induction s as [|c r IH]; intros word; [done|].
  simpl Re.collapse_whitespace.
  destruct (Char.is_space c) eqn:Hc.
  - pose proof (space_not_word c Hc) as Hw.
    rewrite !(findall_go_sep _ c) by done.
    rewrite (findall_go_sep _ Char.space) by done.
    by rewrite (proj2 (IH [])).
  - destruct (Char.is_word c) eqn:Hw.
    + rewrite !findall_go_word by done. split; apply IH.
    + rewrite !findall_go_sep by done. by rewrite (proj1 (IH [])).
Qed.

Lemma findall_collapse_spaces s : ∀ word,
  Re.findall_go word (Re.collapse_spaces false s) = Re.findall_go word s
  ∧ Re.findall_go [] (Re.collapse_spaces true s) = Re.findall_go [] s.
Proof.
  induction s as [|c r IH]; intros word; [done|].
  simpl Re.collapse_spaces.
  destruct (Ascii.eqb c Char.space) eqn:Hc.
  - apply Ascii.eqb_eq in Hc as ->.
    rewrite !(findall_go_sep _ Char.space) by done.
    by rewrite (proj2 (IH [])).
  - destruct (Char.is_word c) eqn:Hw.
    + rewrite !findall_go_word by done. split; apply IH.
    + rewrite !findall_go_sep by done. by rewrite (proj1 (IH [])).
Qed.

Lemma findall_blank_unusual s word :
  Re.findall_go word (Re.blank_unusual s) = Re.findall_go word s.
Proof.
  revert word. induction s as [|c r IH]; intros word; [done|].
  change (Re.blank_unusual (String c r))
    with (String (if Re.keep c then c else Char.space) (Re.blank_unusual r)).
  destruct (Char.is_word c) eqn:Hw.
  - unfold Re.keep. rewrite Hw. cbv [orb].
    rewrite !findall_go_word by done. apply IH.
  - rewrite (findall_go_sep _ c) by done.
    rewrite findall_go_sep; [by rewrite IH|].
    by destruct (Re.keep c).
Qed.

Lemma findall_lstrip s : Re.findall_go [] (Str.lstrip s) = Re.findall_go [] s.
Proof.
  induction s as [|c r IH]; [done|]. simpl Str.lstrip.
  destruct (Char.is_space c) eqn:Hc; [|done].
  by rewrite (findall_go_sep _ c) by by apply space_not_word.
Qed.

Lemma findall_rstrip s word :
  Re.findall_go word (Str.rstrip s) = Re.findall_go word s.
Proof.
  revert word. induction s as [|c r IH]; intros word; [done|].
  simpl Str.rstrip.
  destruct (Char.is_space c) eqn:Hc; simpl andb.
  - pose proof (space_not_word c Hc) as Hw.
    rewrite (findall_go_sep _ c) by done.
    destruct (Str.is_empty (Str.rstrip r)) eqn:He.
    + apply is_empty_true in He. rewrite <- (IH []), He.
      by rewrite findall_go_nil, app_nil_r.
    + rewrite findall_go_sep by done. by rewrite IH.
  - destruct (Char.is_word c) eqn:Hw.
    + rewrite !findall_go_word by done. apply IH.
    + rewrite !findall_go_sep by done. by rewrite IH.
Qed.

Lemma findall_strip s : Re.findall_words (Str.strip s) = Re.findall_words s.
Proof.
  unfold Re.findall_words, Str.strip. by rewrite findall_rstrip, findall_lstrip.
Qed.

Lemma findall_preprocess text :
  Re.findall_words (preprocess_text text) = Re.findall_words text.
Proof.
  unfold preprocess_text. rewrite findall_strip. unfold Re.findall_words.
  rewrite (proj1 (findall_collapse_spaces _ [])), findall_blank_unusual.
  apply findall_collapse_whitespace.
Qed.

(** X1: cleaning a text changes none of its words: the words of the
    cleaned text are the words of the text, in the same order. *)
Theorem preprocess_keeps_words text :
  Re.findall_words (preprocess_text text) = Re.findall_words text.
Proof. apply findall_preprocess. Qed.

(** ** Cleaned texts *)

Lemma kept_cons c r : kept (String c r) = Re.keep c && kept r.
Proof. reflexivity. Qed.

Lemma plain_cons c r :
  plain (String c r)
  = implb (Char.is_space c) (Ascii.eqb c Char.space) && plain r.
Proof. reflexivity. Qed.

Lemma plain_collapse_whitespace b s :
  plain (Re.collapse_whitespace b s) = true.
Proof.
  revert b. induction s as [|c r IH]; intros b; [done|]. simpl.
  destruct (Char.is_space c) eqn:Hc.
  - destruct b; [apply IH|]. rewrite plain_cons, IH. done.
  - rewrite plain_cons, Hc, IH. done.
Qed.

Lemma blank_unusual_cons c r :
  Re.blank_unusual (String c r)
  = String (if Re.keep c then c else Char.space) (Re.blank_unusual r).
Proof. reflexivity. Qed.

Lemma plain_blank_unusual s :
  plain s = true → plain (Re.blank_unusual s) = true.
Proof.
  induction s as [|c r IH]; [done|].
  rewrite blank_unusual_cons, !plain_cons. intros [Hc Hr]%andb_true_iff.
  rewrite (IH Hr), andb_true_r. by destruct (Re.keep c).
Qed.

Lemma kept_blank_unusual s : kept (Re.blank_unusual s) = true.
Proof.
  induction s as [|c r IH]; [done|].
  rewrite blank_unusual_cons, kept_cons, IH, andb_true_r.
  by destruct (Re.keep c) eqn:Hk.
Qed.

Lemma kept_collapse_spaces b s :
  kept s = true → kept (Re.collapse_spaces b s) = true.
Proof.
  revert b. induction s as [|c r IH]; intros b; [done|].
  rewrite kept_cons. intros [Hc Hr]%andb_true_iff. simpl.
  destruct (Ascii.eqb c Char.space) eqn:E.
  - destruct b; [by apply IH|]. rewrite kept_cons. by rewrite IH.
  - rewrite kept_cons, Hc. by apply IH.
Qed.

Lemma spaced_collapse_spaces b s :
  plain s = true → spaced b (Re.collapse_spaces b s) = true.
Proof.
  revert b. induction s as [|c r IH]; intros b; [done|].
  rewrite plain_cons. intros [Hc Hr]%andb_true_iff. simpl.
  destruct (Ascii.eqb c Char.space) eqn:E.
  - destruct b; [by apply IH|]. simpl. by apply IH.
  - simpl. destruct (Char.is_space c); [done|]. by apply IH.
Qed.

Lemma kept_lstrip s : kept s = true → kept (Str.lstrip s) = true.
Proof.
  induction s as [|c r IH]; [done|]. simpl Str.lstrip.
  destruct (Char.is_space c); [|done].
  rewrite kept_cons. intros [_ Hr]%andb_true_iff. by apply IH.
Qed.

Lemma kept_rstrip s : kept s = true → kept (Str.rstrip s) = true.
Proof.
  induction s as [|c r IH]; [done|]. simpl Str.rstrip.
  rewrite kept_cons. intros [Hc Hr]%andb_true_iff.
  destruct (Char.is_space c && Str.is_empty (Str.rstrip r)); [done|].
  rewrite kept_cons, Hc. by apply IH.
Qed.

Lemma spaced_lstrip b s :
  spaced b s = true → spaced true (Str.lstrip s) = true.
Proof.
  revert b. induction s as [|c r IH]; intros b; [done|].
  simpl. destruct (Char.is_space c) eqn:Hc.
  - intros [_ Hr]%andb_true_iff. by apply (IH true).
  - intros Hr. simpl. by rewrite Hc.
Qed.

Lemma spaced_head d r : spaced true (String d r) = true → Char.is_space d = false.
Proof.
  simpl. destruct (Char.is_space d); [|done].
  rewrite andb_false_r. done.
Qed.

Lemma single_blanks_blank c d r :
  Char.is_space c = true →
  single_blanks (String c (String d r))
  = Ascii.eqb c Char.space && negb (Char.is_space d)
    && single_blanks (String d r).
Proof.
  intros H.
  change (single_blanks (String c (String d r)))
    with (if Char.is_space c
          then Ascii.eqb c Char.space && negb (Char.is_space d)
               && single_blanks (String d r)
          else single_blanks (String d r)).
  by rewrite H.
Qed.

Lemma single_blanks_rstrip b s :
  spaced b s = true → single_blanks (Str.rstrip s) = true.
Proof.
  revert b. induction s as [|c r IH]; intros b; [done|].
  simpl spaced. simpl Str.rstrip. destruct (Char.is_space c) eqn:Hc.
  - intros [[Hb _]%andb_true_iff Hr]%andb_true_iff. simpl andb.
    destruct (Str.rstrip r) as [|d r''] eqn:E; [done|].
    simpl Str.is_empty. cbv iota.
    assert (Char.is_space d = false) as Hd.
    { destruct r as [|d' r']; [done|].
      pose proof (spaced_head _ _ Hr) as Hd'.
      simpl in E. rewrite Hd' in E. simpl in E. by injection E as <- _. }
    rewrite single_blanks_blank, Hb, Hd by done. by apply (IH true).
  - intros Hr. simpl andb. cbv iota. simpl. rewrite Hc. by apply (IH false).
Qed.

(** The cleaned text is clean. *)
Lemma clean_preprocess text : clean (preprocess_text text) = true.
Proof.
  unfold clean, preprocess_text.
  set (u := Re.collapse_spaces false _).
  assert (kept u = true) as Hk by apply kept_collapse_spaces, kept_blank_unusual.
  assert (spaced false u = true) as Hs
    by apply spaced_collapse_spaces, plain_blank_unusual, plain_collapse_whitespace.
  rewrite !andb_true_iff. split_and!.
  - by apply kept_rstrip, kept_lstrip.
  - destruct (strip_trimmed u) as [Hl _].
    destruct (Str.strip u) as [|c r]; [done|].
    apply lstrip_head in Hl. simpl. by rewrite Hl.
  - apply (single_blanks_rstrip true). by apply (spaced_lstrip false).
Qed.

Lemma single_blanks_cons c r :
  single_blanks (String c r) = true →
  single_blanks r = true
  ∧ (Char.is_space c = true →
     c = Char.space ∧ starts_blank r = false ∧ r ≠ EmptyString).
Proof.
  simpl. destruct (Char.is_space c) eqn:Hc; [|done].
  intros [[Hb Hd]%andb_true_iff Hr]%andb_true_iff. split; [done|]. intros _.
  apply Ascii.eqb_eq in Hb. destruct r as [|d r']; [done|].
  simpl. by apply negb_true_iff in Hd.
Qed.

Lemma collapse_whitespace_clean b s :
  single_blanks s = true → (b = true → starts_blank s = false) →
  Re.collapse_whitespace b s = s.
Proof.
  revert b. induction s as [|c r IH]; intros b Hs Hb; [done|].
  apply single_blanks_cons in Hs as [Hr Hc]. simpl.
  destruct (Char.is_space c) eqn:E.
  - destruct (Hc eq_refl) as (-> & Hd & _).
    destruct b; [by specialize (Hb eq_refl)|].
    by rewrite IH.
  - by rewrite IH.
Qed.

Lemma blank_unusual_kept s : kept s = true → Re.blank_unusual s = s.
Proof.
  induction s as [|c r IH]; [done|].
  rewrite kept_cons, blank_unusual_cons. intros [-> Hr]%andb_true_iff.
  by rewrite IH.
Qed.

Lemma collapse_spaces_clean b s :
  single_blanks s = true → (b = true → starts_blank s = false) →
  Re.collapse_spaces b s = s.
Proof.
  revert b. induction s as [|c r IH]; intros b Hs Hb; [done|].
  apply single_blanks_cons in Hs as [Hr Hc]. simpl.
  destruct (Ascii.eqb c Char.space) eqn:E.
  - apply Ascii.eqb_eq in E as ->.
    destruct (Hc eq_refl) as (_ & Hd & _).
    destruct b; [by specialize (Hb eq_refl)|].
    by rewrite IH.
  - by rewrite IH.
Qed.

Lemma rstrip_clean s : single_blanks s = true → Str.rstrip s = s.
Proof.
  induction s as [|c r IH]; [done|]. intros Hs.
  apply single_blanks_cons in Hs as [Hr Hc]. simpl. rewrite (IH Hr).
  destruct (Char.is_space c) eqn:E; [|done].
  destruct (Hc eq_refl) as (_ & _ & Hne). by destruct r.
Qed.

Lemma lstrip_clean s : starts_blank s = false → Str.lstrip s = s.
Proof. destruct s as [|c r]; [done|]. simpl. by intros ->. Qed.

Lemma preprocess_clean s : clean s = true → preprocess_text s = s.
Proof.
  unfold clean. rewrite !andb_true_iff, negb_true_iff.
  intros [[Hk Hb] Hs]. unfold preprocess_text, Str.strip.
  rewrite collapse_whitespace_clean by done.
  rewrite blank_unusual_kept by done.
  rewrite collapse_spaces_clean by done.
  rewrite lstrip_clean by done. by apply rstrip_clean.
Qed.

(** X2: the texts that [preprocess_text] leaves as they are are exactly
    the clean ones, and every cleaned text is one: kept characters only,
    single blanks between them and none at either end. *)
Theorem preprocess_text_fixed_points s :
  (preprocess_text s = s ↔ clean s = true)
  ∧ clean (preprocess_text s) = true.
Proof.
  split; [|apply clean_preprocess]. split.
  - intros <-. apply clean_preprocess.
  - apply preprocess_clean.
Qed.

(** X3: cleaning a text twice is cleaning it once. *)
Theorem preprocess_text_idempotent text :
  preprocess_text (preprocess_text text) = preprocess_text text.
Proof. apply preprocess_clean, clean_preprocess. Qed.

(** ** Splitting and joining *)

Lemma split_go_nonempty a b s : Re.split_go a b s ≠ [].
Proof.
  revert a b. induction s as [|c r IH]; intros a b; simpl; [done|].
  destruct (Char.is_space c && (a || b)).
  - destruct b; [apply IH|done].
  - destruct (Re.split_go (Char.is_terminator c) false r); done.
Qed.

Lemma join_cons_head c l :
  l ≠ [] → Str.join " " (Re.cons_head c l) = String c (Str.join " " l).
Proof.
  destruct l as [|p [|q l]]; [done|done|]. intros _.
  unfold Re.cons_head. rewrite !join_cons by done. by rewrite append_cons.
Qed.

(** On a text whose white space is single blanks, joining the sentences
    by blanks gives the text back. *)
Lemma join_split_go a s :
  single_blanks s = true → Str.join " " (Re.split_go a false s) = s.
Proof.
  revert a. induction s as [|c r IH]; intros a Hs; [done|].
  apply single_blanks_cons in Hs as [Hr Hc].
  simpl Re.split_go. rewrite orb_false_r.
  destruct (Char.is_space c) eqn:E; simpl andb; cbv iota.
  - destruct (Hc eq_refl) as (-> & Hd & Hne). destruct a; cbv iota.
    + destruct r as [|d r']; [done|]. simpl in Hd.
      assert (Re.split_go false true (String d r')
              = Re.split_go false false (String d r')) as ->.
      { simpl. by rewrite Hd. }
      rewrite join_cons by apply split_go_nonempty.
      rewrite append_nil, (IH false Hr). done.
    + rewrite join_cons_head by apply split_go_nonempty. by rewrite IH.
  - rewrite join_cons_head by apply split_go_nonempty. by rewrite IH.
Qed.

Lemma join_split_clean s :
  clean s = true → Str.join " " (Re.split_sentences s) = s.
Proof.
  unfold clean. rewrite !andb_true_iff. intros [_ Hs]. by apply join_split_go.
Qed.

(** X4: joined by single blanks, the sentences into which [create_chunks]
    splits the cleaned text give that text back. *)
Theorem sentences_join text :
  Str.join " " (Re.split_sentences (preprocess_text text))
  = preprocess_text text.
Proof. apply join_split_clean, clean_preprocess. Qed.

(** ** Chunks of short texts *)

(** While the sentences joined stay within the size, the loop saves
    nothing. *)
Lemma chunk_loop_short chunk_size l :
  Forall solid l →
  (Z.of_nat (String.length (Str.join " " l)) ≤ chunk_size)%Z →
  chunk_loop chunk_size l = Chunker [] (Str.join " " l) l.
Proof.
  induction l as [|s l IH] using rev_ind; intros Hall Hlen; [done|].
  apply Forall_app in Hall as [Hl Hs]. apply Forall_inv in Hs.
  rewrite chunk_loop_snoc. destruct l as [|x l].
  - unfold chunk_loop, chunk_step, overflows. simpl.
    by rewrite andb_false_r.
  - rewrite join_snoc, !length_append in Hlen by done.
    rewrite IH by (done || lia).
    pose proof (join_nonempty (x :: l) ltac:(done) Hl) as Hne.
    apply is_empty_false in Hne.
    unfold chunk_step, overflows. cbn [current_chunk sentence_buffer chunks_out].
    rewrite Hne. rewrite (proj2 (Z.ltb_ge _ _)).
    + cbn [andb negb]. by rewrite join_snoc.
    + change (String.length " ") with 1 in Hlen. lia.
Qed.

(** X5: a text that is within the chunk size once cleaned gives one chunk,
    which is the cleaned text. *)
Theorem create_chunks_single text chunk_size overlap :
  preprocess_text text ≠ EmptyString →
  (Z.of_nat (String.length (preprocess_text text)) ≤ chunk_size)%Z →
  create_chunks text chunk_size overlap
  = [Chunk (preprocess_text text)
           (String.length (preprocess_text text))
           (length (Re.split_sentences (preprocess_text text)))].
Proof.
  intros Hne Hlen. unfold create_chunks. cbv zeta.
  pose proof (sentences_solid text Hne) as Hsolid.
  pose proof (join_split_clean _ (clean_preprocess text)) as Hjoin.
  rewrite chunk_loop_short by (done || by rewrite Hjoin).
  unfold chunker_finish, close_chunk.
  cbn [current_chunk sentence_buffer chunks_out]. rewrite Hjoin.
  destruct (preprocess_trimmed text) as [Hl Hr].
  assert (Str.strip (preprocess_text text) = preprocess_text text) as ->.
  { unfold Str.strip. by rewrite Hl. }
  apply is_empty_false in Hne. by rewrite Hne.
Qed.

Lemma create_chunks_single_witness :
  preprocess_text "Newton  first law." ≠ EmptyString
  ∧ (Z.of_nat (String.length (preprocess_text "Newton  first law.")) ≤ 1000)%Z
  ∧ create_chunks "Newton  first law." 1000 100
    = [Chunk (preprocess_text "Newton  first law.")
             (String.length (preprocess_text "Newton  first law."))
             (length (Re.split_sentences (preprocess_text "Newton  first law.")))].
Proof.
  assert (H1 : preprocess_text "Newton  first law." ≠ EmptyString)
    by (by vm_compute).
  assert (H2 : (Z.of_nat (String.length (preprocess_text "Newton  first law."))
                ≤ 1000)%Z) by (by vm_compute).
  split; [exact H1|]. split; [exact H2|].
  exact (create_chunks_single "Newton  first law." 1000 100 H1 H2).
Defined.

(** ** What every chunk is *)

(** X6: every chunk has a text that is not empty and has no blank at
    either end, its ['length'] is the length of that text and it counts
    at least one sentence; there is no chunk exactly when nothing is left
    of the text after cleaning. *)
Theorem create_chunks_wellformed text chunk_size overlap :
  Forall (λ c,
      chunk_text c ≠ EmptyString
      ∧ Str.strip (chunk_text c) = chunk_text c
      ∧ chunk_length c = String.length (chunk_text c)
      ∧ 0 < chunk_sentence_count c)
    (create_chunks text chunk_size overlap)
  ∧ (create_chunks text chunk_size overlap = []
     ↔ preprocess_text text = EmptyString).
Proof.
  destruct (decide (preprocess_text text = EmptyString)) as [He|Hne].
  - destruct (create_chunks_blank text chunk_size overlap He) as [-> _].
    by split.
  - split.
    + destruct (create_chunks_spec text chunk_size overlap Hne)
        as (-> & _ & _ & Hall & _).
      apply Forall_fmap. eapply Forall_impl; [exact Hall|].
      intros t [Ht Hsolid]. cbn.
      pose proof (join_solid _ Ht Hsolid) as Hj. split_and!.
      * by destruct Hj.
      * by apply strip_solid.
      * done.
      * destruct (tr_sentences t); [done|]. simpl. lia.
    + split; [|done]. intros Hnil.
      by apply create_chunks_nonempty in Hnil.
Qed.

(** ** The words of the chunks *)

Lemma findall_words_sentences s :
  clean s = true →
  concat (Re.findall_words <$> Re.split_sentences s) = Re.findall_words s.
Proof. intros Hs. by rewrite <- findall_words_join, join_split_clean. Qed.

Lemma elem_of_concat_words w (l : list string) :
  w ∈ concat (Re.findall_words <$> l) ↔ ∃ s, s ∈ l ∧ w ∈ Re.findall_words s.
Proof.
  rewrite list_elem_of_In, in_concat. split.
  - intros (ws & Hws & Hw). apply list_elem_of_In, list_elem_of_fmap in Hws
      as (s & -> & Hs). exists s. split; [done|]. by apply list_elem_of_In.
  - intros (s & Hs & Hw). exists (Re.findall_words s). split.
    + apply list_elem_of_In, list_elem_of_fmap. by exists s.
    + by apply list_elem_of_In.
Qed.

(** The sentences of a traced chunk are sentences of the text: those it
    carries over come from the chunk before it. *)
Lemma trace_sentences (trace : list traced_chunk) (sentences : list string) :
  concat (fresh_sentences <$> trace) = sentences →
  chained trace →
  (∀ t, head trace = Some t → tr_seed t = 0) →
  ∀ i t, trace !! i = Some t → tr_sentences t ⊆ sentences.
Proof.
  intros Hcat Hchain Hhead.
  assert (∀ t, t ∈ trace → fresh_sentences t ⊆ sentences) as Hfresh.
  { intros t Ht s Hs. rewrite <- Hcat.
    apply list_elem_of_In, in_concat. exists (fresh_sentences t).
    split; apply list_elem_of_In; [|done].
    apply list_elem_of_fmap. by exists t. }
  induction i as [|i IH]; intros t Hi.
  - pose proof (Hfresh t (list_elem_of_lookup_2 _ _ _ Hi)) as Hf.
    unfold fresh_sentences in Hf. rewrite (Hhead t) in Hf; [done|].
    by destruct trace; simplify_eq/=.
  - destruct (trace !! i) as [t1|] eqn:Hi1.
    2:{ apply lookup_ge_None in Hi1. apply lookup_lt_Some in Hi. lia. }
    specialize (IH t1 eq_refl).
    pose proof (Hfresh t (list_elem_of_lookup_2 _ _ _ Hi)) as Hf.
    unfold fresh_sentences in Hf.
    rewrite <- (take_drop (tr_seed t) (tr_sentences t)).
    intros s [Hs|Hs]%elem_of_app; [|by apply Hf].
    destruct (Hchain i t1 t Hi1 Hi) as [(_ & Hseed & Htake)|[_ Hseed]].
    + rewrite Hseed, Htake in Hs. apply IH.
      unfold last_two in Hs. by eapply subseteq_drop.
    + rewrite Hseed in Hs. by apply elem_of_nil in Hs.
Qed.

Lemma chunk_words text chunk_size overlap w :
  w ∈ Re.findall_words text
  ↔ ∃ c, c ∈ create_chunks text chunk_size overlap
         ∧ w ∈ Re.findall_words (chunk_text c).
Proof.
  rewrite <- (findall_preprocess text).
  destruct (decide (preprocess_text text = EmptyString)) as [He|Hne].
  - destruct (create_chunks_blank text chunk_size overlap He) as [-> _].
    rewrite He. split.
    + by intros ?%elem_of_nil.
    + by intros (c & ?%elem_of_nil & _).
  - destruct (create_chunks_spec text chunk_size overlap Hne)
      as (-> & Hcat & _ & _ & Hchain & Hhead).
    rewrite <- (findall_words_sentences _ (clean_preprocess text)).
    rewrite elem_of_concat_words. split.
    + intros (s & Hs & Hw). rewrite <- Hcat in Hs.
      apply list_elem_of_In, in_concat in Hs as (l & Hl & Hs).
      apply list_elem_of_In, list_elem_of_fmap in Hl as (t & -> & Ht).
      apply list_elem_of_In in Hs.
      exists (chunk_of_trace t). split.
      * apply list_elem_of_fmap. by exists t.
      * cbn. rewrite findall_words_join. apply elem_of_concat_words.
        exists s. split; [|done]. unfold fresh_sentences in Hs.
        by eapply subseteq_drop.
    + intros (c & Hc & Hw).
      apply list_elem_of_fmap in Hc as (t & -> & Ht).
      cbn in Hw. rewrite findall_words_join in Hw.
      apply elem_of_concat_words in Hw as (s & Hs & Hw).
      exists s. split; [|done].
      apply list_elem_of_lookup in Ht as [i Hi].
      by eapply (trace_sentences _ _ Hcat Hchain Hhead i t).
Qed.

(** X7: chunking neither loses nor invents a word: the words of the text
    are exactly the words of the texts of its chunks. *)
Theorem create_chunks_words text chunk_size overlap w :
  w ∈ Re.findall_words text
  ↔ ∃ c, c ∈ create_chunks text chunk_size overlap
         ∧ w ∈ Re.findall_words (chunk_text c).
Proof. apply chunk_words. Qed.

(** ** Words and lower case *)

Lemma lower_is_word c : Char.is_word (Char.lower c) = Char.is_word c.
Proof. destruct c as [[] [] [] [] [] [] [] []]; reflexivity. Qed.

Lemma lower_lower c : Char.lower (Char.lower c) = Char.lower c.
Proof. destruct c as [[] [] [] [] [] [] [] []]; reflexivity. Qed.

Lemma str_lower_lower s : Str.lower (Str.lower s) = Str.lower s.
Proof.
  unfold Str.lower. induction s as [|c r IH]; [done|].
  simpl. by rewrite lower_lower, IH.
Qed.

Lemma rev_reverse {A} (l : list A) : rev l = reverse l.
Proof. apply rev_alt. Qed.

Lemma map_string_of_list f l :
  Str.map f (string_of_list_ascii l) = string_of_list_ascii (f <$> l).
Proof. induction l as [|c l IH]; [done|]. simpl. by rewrite IH. Qed.

Lemma flush_lower word :
  flush (Char.lower <$> word) = Str.lower <$> flush word.
Proof.
  destruct word as [|c word]; [done|].
  change (flush (Char.lower <$> c :: word))
    with [string_of_list_ascii (rev (Char.lower <$> c :: word))].
  change (Str.lower <$> flush (c :: word))
    with [Str.map Char.lower (string_of_list_ascii (rev (c :: word)))].
  by rewrite map_string_of_list, !rev_reverse, fmap_reverse.
Qed.

Lemma findall_go_lower word s :
  Re.findall_go (Char.lower <$> word) (Str.lower s)
  = Str.lower <$> Re.findall_go word s.
Proof.
  revert word. induction s as [|c r IH]; intros word.
  - change (Str.lower EmptyString) with EmptyString.
    by rewrite !findall_go_nil, flush_lower.
  - change (Str.lower (String c r)) with (String (Char.lower c) (Str.lower r)).
    destruct (Char.is_word c) eqn:Hc.
    + rewrite !findall_go_word by by rewrite ?lower_is_word.
      apply (IH (c :: word)).
    + rewrite !findall_go_sep by by rewrite ?lower_is_word.
      by rewrite fmap_app, flush_lower, <- (IH []).
Qed.

(** The words of the lowered text are the lowered words of the text:
    on the characters U+0000 to U+00FF [str.lower] changes every
    character by itself and keeps its class. *)
Lemma findall_words_lower s :
  Re.findall_words (Str.lower s) = Str.lower <$> Re.findall_words s.
Proof. apply (findall_go_lower []). Qed.

(** ** Extraction *)

Lemma readable_blank p : readable_page p = false ↔ blank_page p.
Proof.
  destruct p as [page_text|]; [|done]. simpl.
  rewrite negb_false_iff. apply is_empty_true.
Qed.

Lemma readable_pages_blank pages :
  existsb readable_page pages = false ↔ Forall blank_page pages.
Proof.
  induction pages as [|p pages IH]; [done|]. simpl.
  rewrite orb_false_iff, Forall_cons, IH, readable_blank. done.
Qed.

(** What a readable page adds to the extracted text. *)
Lemma page_entry extracted_text page_num total_pages page_text :
  extracted_text +:+ page_marker page_num total_pages
  +:+ Str.strip page_text +:+ Str.nl
  = (extracted_text +:+ Str.nl +:+ "--- Page " +:+ Str.of_nat (page_num + 1)
     +:+ " of " +:+ Str.of_nat total_pages +:+ " ---")
    +:+ String Char.newline (Str.strip page_text +:+ String Char.newline EmptyString).
Proof. unfold page_marker. by rewrite !append_assoc. Qed.

Lemma append_nonempty_r s1 s2 : s2 ≠ EmptyString → s1 +:+ s2 ≠ EmptyString.
Proof.
  intros H E%(f_equal String.length). rewrite length_append in E.
  destruct s2; [done|]. simpl in E. lia.
Qed.

Lemma extract_pages_nonempty pages : ∀ page_num total_pages extracted_text,
  extracted_text ≠ EmptyString ∨ existsb readable_page pages = true →
  extract_pages page_num total_pages pages extracted_text ≠ EmptyString.
Proof.
  induction pages as [|p pages IH]; intros page_num total_pages extracted_text H.
  - simpl in *. by destruct H.
  - simpl. apply IH. destruct p as [page_text|].
    + destruct (Str.is_empty (Str.strip page_text)) eqn:E.
      * simpl in H. rewrite E in H. simpl in H. done.
      * left. apply append_nonempty_r. unfold page_marker. done.
    + simpl in H. done.
Qed.

Lemma newline_not_word : Char.is_word Char.newline = false.
Proof. reflexivity. Qed.

(** The words of a page of which the text is taken are words of the
    extracted text, and so are the words gathered before. *)
Lemma extract_pages_words pages w : ∀ page_num total_pages extracted_text,
  w ∈ Re.findall_words extracted_text
  ∨ (∃ page_text, PageText page_text ∈ pages ∧ w ∈ Re.findall_words page_text) →
  w ∈ Re.findall_words (extract_pages page_num total_pages pages extracted_text).
Proof.
  induction pages as [|p pages IH]; intros page_num total_pages extracted_text H.
  - destruct H as [H|(page_text & H%elem_of_nil & _)]; done.
  - simpl. apply IH.
    assert (∀ page_text,
      w ∈ Re.findall_words extracted_text ∨ w ∈ Re.findall_words page_text →
      w ∈ Re.findall_words
            (if Str.is_empty (Str.strip page_text) then extracted_text
             else extracted_text +:+ page_marker page_num total_pages
                  +:+ Str.strip page_text +:+ Str.nl)) as Hpage.
    { intros page_text Hw.
      destruct (Str.is_empty (Str.strip page_text)) eqn:E.
      - destruct Hw as [Hw|Hw]; [done|].
        apply is_empty_true in E. rewrite <- findall_strip, E in Hw.
        by apply elem_of_nil in Hw.
      - rewrite page_entry.
        rewrite findall_words_append by apply newline_not_word.
        rewrite (findall_words_append (Str.strip page_text))
          by apply newline_not_word.
        rewrite findall_strip. destruct Hw as [Hw|Hw].
        + apply elem_of_app. left.
          unfold Str.nl. rewrite (append_cons Char.newline), append_nil.
          rewrite findall_words_append by apply newline_not_word.
          apply elem_of_app. by left.
        + apply elem_of_app. right. apply elem_of_app. by left. }
    destruct H as [H|(page_text & Hp & Hw)].
    + destruct p as [page_text|]; [|by left]. left. apply Hpage. by left.
    + apply elem_of_cons in Hp as [<-|Hp].
      * left. apply Hpage. by right.
      * right. by exists page_text.
Qed.

(** What [extract_text_from_pdf] returns on a file with a readable page. *)
Lemma extract_text_readable pages :
  existsb readable_page pages = true →
  ∃ rest,
    extract_text_from_pdf (Pdf pages) = Ok (String "-" rest)
    ∧ Str.strip (extract_pages 0 (length pages) pages EmptyString)
      = String "-" rest.
Proof.
  intros H. unfold extract_text_from_pdf. cbv zeta.
  pose proof (extract_pages_nonempty pages 0 (length pages) EmptyString
                (or_intror H)) as Hne.
  destruct (extract_pages_marked pages 0 (length pages) EmptyString
              (or_introl eq_refl)) as [He|Hm]; [done|].
  apply strip_marked in Hm as [rest ->]. by exists rest.
Qed.

(** X8: the extraction succeeds exactly on a file that opens and has a
    page with text that is not blank.  The text it returns is not empty,
    has no blank at either end and has every word of every page whose
    text was read. *)
Theorem extract_text_from_pdf_readable file :
  match extract_text_from_pdf file with
  | Ok document_text =>
      readable file = true
      ∧ document_text ≠ EmptyString
      ∧ Str.strip document_text = document_text
      ∧ ∀ pages page_text w,
          file = Pdf pages → PageText page_text ∈ pages →
          w ∈ Re.findall_words page_text →
          w ∈ Re.findall_words document_text
  | Raise _ => readable file = false
  end.
Proof.
  destruct file as [pages|message]; [|done].
  destruct (existsb readable_page pages) eqn:E.
  - destruct (extract_text_readable pages E) as (rest & -> & Hrest).
    split_and!; [done|done| |].
    + rewrite <- Hrest. unfold Str.strip.
      destruct (strip_trimmed (extract_pages 0 (length pages) pages EmptyString))
        as [Hl Hr].
      unfold Str.strip in Hl, Hr. by rewrite Hl, Hr.
    + intros ? page_text w [= <-] Hp Hw. rewrite <- Hrest, findall_strip.
      apply extract_pages_words. right. by exists page_text.
  - apply readable_pages_blank in E as Hblank. unfold extract_text_from_pdf.
    cbv zeta. rewrite extract_pages_blank by done. simpl. exact E.
Qed.

(** ** The range of the scores *)

Lemma nonneg_leb_zero x : nonneg x → (0 <=? x)%float = true.
Proof.
  unfold nonneg. rewrite FloatAxioms.leb_spec.
  change (Prim2SF 0) with (S754_zero false).
  by destruct (Prim2SF x) as [[]|[]| |[] m e].
Qed.

Lemma py_min_one x : nonneg x → (py_min x 1 <=? 1)%float = true.
Proof.
  intros Hx. unfold py_min. destruct (1 <? x)%float eqn:E; [done|].
  rewrite (leb_not_ltb 1 x); [by rewrite E|by vm_compute|done].
Qed.

Lemma score_chunk_bounded query_lower query_words chunk r :
  (Z.of_nat (size query_words) < 2 ^ 53)%Z →
  score_chunk query_lower query_words chunk = Some r →
  (0 <=? similarity_score r)%float = true
  ∧ (similarity_score r <=? 1)%float = true.
Proof.
  intros Hlt Hr. split.
  { eapply nonneg_leb_zero, score_chunk_nonneg; done. }
  revert Hr. unfold score_chunk.
  set (common_words := query_words ∩ word_set (cd_text_lower chunk)).
  destruct (decide (common_words = ∅)) as [|Hne]; [done|].
  intros [= <-]. simpl.
  assert (Hpos : 0 < size common_words).
  { apply Nat.neq_0_lt_0. intros H0. apply Hne.
    by apply leibniz_equiv, size_empty_iff. }
  assert (Hle : size common_words ≤ size query_words).
  { apply subseteq_size, intersection_subseteq_l. }
  apply py_min_one.
  apply add_nonneg; [apply add_nonneg|].
  - by apply ratio_nonneg.
  - destruct (Str.contains _ _); by vm_compute.
  - destruct (1 <? _); by vm_compute.
Qed.

(** Every result was scored from a stored chunk. *)
Lemma search_elem self query max_results r :
  r ∈ search_relevant_content self query max_results →
  query_tokens query ≠ ∅
  ∧ ∃ chunk, chunk ∈ chunks self
             ∧ score_chunk (Str.lower query) (query_tokens query) chunk = Some r.
Proof.
  rewrite search_ranked. intros Hr.
  destruct (slice_to_take max_results (ranked self query).*2) as [k Hk].
  rewrite Hk in Hr. apply subseteq_take in Hr.
  apply list_elem_of_fmap in Hr as ([i r'] & -> & Hir).
  apply ranked_elem in Hir as (Hq & chunk & Hi & Hs).
  split; [done|]. exists chunk. split; [|done].
  by eapply list_elem_of_lookup_2.
Qed.

(** X9: for a query of fewer than [2^53] distinct words, every score
    returned is a number from 0 to 1 (and not a NaN). *)
Theorem search_scores_bounded self query max_results :
  (Z.of_nat (size (query_tokens query)) < 2 ^ 53)%Z →
  Forall (λ r, (0 <=? similarity_score r)%float = true
               ∧ (similarity_score r <=? 1)%float = true)
         (search_relevant_content self query max_results).
Proof.
  intros Hlt. apply Forall_forall. intros r Hr.
  apply search_elem in Hr as (_ & chunk & _ & Hs).
  by eapply score_chunk_bounded.
Qed.

Lemma search_scores_bounded_witness :
  (Z.of_nat (size (query_tokens "physics concepts")) < 2 ^ 53)%Z
  ∧ Forall (λ r, (0 <=? similarity_score r)%float = true
                 ∧ (similarity_score r <=? 1)%float = true)
           (search_relevant_content physics_engine "physics concepts" 3).
Proof.
  assert (H : (Z.of_nat (size (query_tokens "physics concepts")) < 2 ^ 53)%Z)
    by (by vm_compute).
  split; [exact H|].
  exact (search_scores_bounded physics_engine "physics concepts" 3 H).
Defined.

(** ** The matching words *)

(** X10: every result is made from a stored chunk, and its matching words
    are the words that the query and that chunk share, in lower case:
    at least one, none twice. *)
Theorem search_matching_words self query max_results :
  Forall (λ r,
      ∃ chunk,
        chunk ∈ chunks self
        ∧ sc_text r = cd_text chunk
        ∧ sc_filename r = cd_filename chunk
        ∧ matching_words r ≠ []
        ∧ NoDup (matching_words r)
        ∧ ∀ w, w ∈ matching_words r
               ↔ w ∈ Re.findall_words (Str.lower query)
                 ∧ w ∈ Re.findall_words (cd_text_lower chunk))
    (search_relevant_content self query max_results).
Proof.
  apply Forall_forall. intros r Hr.
  apply search_elem in Hr as (_ & chunk & Hc & Hs).
  apply score_chunk_spec in Hs as (Hne & _ & Ht & Hf & _ & Hm).
  exists chunk. rewrite Hm. split_and!; try done.
  - intros He. apply elements_empty_inv in He. by apply leibniz_equiv in He.
  - apply NoDup_elements.
  - intros w. rewrite elem_of_elements. unfold common_tokens, query_tokens, word_set.
    rewrite elem_of_intersection, !elem_of_list_to_set. done.
Qed.

(** ** The limit *)

Lemma length_omap_score query (l : list chunk_data) :
  length (omap (score_chunk (Str.lower query) (query_tokens query)) l)
  = length (filter (λ chunk, common_tokens query chunk ≠ ∅) l).
Proof.
  induction l as [|c l IH]; [done|].
  rewrite omap_cons, filter_cons.
  destruct (decide (common_tokens query c ≠ ∅)) as [Hne|He].
  - destruct (score_chunk_common query c Hne) as [r ->]. simpl. by rewrite IH.
  - destruct (score_chunk _ _ c) as [r|] eqn:Hs; [|done].
    by apply score_chunk_spec in Hs as (Hne & _).
Qed.

Lemma imap_pair_snd {A} (l : list A) : (imap pair l).*2 = l.
Proof.
  rewrite fmap_imap. unfold compose. simpl.
  induction l as [|x l IH]; [done|]. rewrite imap_cons. f_equal.
  rewrite <- IH at 2. by apply imap_ext.
Qed.

Lemma length_ranked self query :
  length (ranked self query)
  = length (filter (λ chunk, common_tokens query chunk ≠ ∅) (chunks self)).
Proof.
  unfold ranked. cbv zeta. fold (query_tokens query).
  destruct (decide (query_tokens query = ∅)) as [He|Hne].
  - simpl. induction (chunks self) as [|c l IH]; [done|].
    rewrite filter_cons. destruct (decide _) as [Hne|_]; [|done].
    exfalso. apply Hne. unfold common_tokens. rewrite He.
    apply intersection_empty_l_L.
  - rewrite (Permutation_length (sort_desc_perm _ _)).
    rewrite <- (length_fmap snd), scored_fmap, imap_pair_snd.
    apply length_omap_score.
Qed.

Lemma search_length self query max_results :
  (0 ≤ max_results)%Z →
  length (search_relevant_content self query max_results)
  = Z.to_nat max_results
    `min` length (filter (λ chunk, common_tokens query chunk ≠ ∅) (chunks self)).
Proof.
  intros Hm. rewrite search_ranked, slice_to_nonneg by done.
  by rewrite length_take, length_fmap, length_ranked.
Qed.

(** X11: for a limit that is not negative, the search returns as many
    results as there are stored chunks sharing a word with the query, up
    to the limit; and a smaller limit gives the first results of a
    greater one. *)
Theorem search_limit self query max_results :
  (0 ≤ max_results)%Z →
  length (search_relevant_content self query max_results)
  = Z.to_nat max_results
    `min` length (filter (λ chunk, common_tokens query chunk ≠ ∅) (chunks self))
  ∧ ∀ more, (max_results ≤ more)%Z →
      search_relevant_content self query max_results
      = take (Z.to_nat max_results) (search_relevant_content self query more).
Proof.
  intros Hm. split; [by apply search_length|].
  intros more Hmore. rewrite !search_ranked, !slice_to_nonneg by lia.
  rewrite take_take. f_equal. lia.
Qed.

Lemma search_limit_witness :
  (0 ≤ 2)%Z
  ∧ length (search_relevant_content physics_engine "physics concepts" 2)
    = Z.to_nat 2
      `min` length (filter (λ chunk, common_tokens "physics concepts" chunk ≠ ∅)
                           (chunks physics_engine)).
Proof.
  assert (H : (0 ≤ 2)%Z) by lia.
  split; [exact H|].
  exact (proj1 (search_limit physics_engine "physics concepts" 2 H)).
Defined.

(** ** Letter case *)

(** X12: the letter case of the query does not matter: the query in lower
    case gives the results of the query. *)
Theorem search_query_case self query max_results :
  search_relevant_content self (Str.lower query) max_results
  = search_relevant_content self query max_results.
Proof. unfold search_relevant_content. by rewrite str_lower_lower. Qed.

(** A stored chunk that shares a word with the query is found. *)
Lemma search_finds self query max_results chunk :
  chunk ∈ chunks self → common_tokens query chunk ≠ ∅ →
  (0 < max_results)%Z →
  search_relevant_content self query max_results ≠ [].
Proof.
  intros Hc Hne Hm Hnil. apply (f_equal length) in Hnil.
  rewrite search_length in Hnil by lia. simpl in Hnil.
  assert (chunk ∈ filter (λ chunk, common_tokens query chunk ≠ ∅) (chunks self))
    as Hin by by apply list_elem_of_filter.
  destruct (filter _ (chunks self)); [by apply elem_of_nil in Hin|].
  simpl in Hnil. lia.
Qed.

(** ** The entries that [add_document] stores *)

Lemma chunks_wellformed text chunk_size overlap c :
  c ∈ create_chunks text chunk_size overlap →
  chunk_text c ≠ EmptyString
  ∧ Str.strip (chunk_text c) = chunk_text c
  ∧ chunk_length c = String.length (chunk_text c)
  ∧ 0 < chunk_sentence_count c.
Proof.
  intros Hc.
  destruct (decide (preprocess_text text = EmptyString)) as [He|Hne].
  { destruct (create_chunks_blank text chunk_size overlap He) as [E _].
    rewrite E in Hc. by apply elem_of_nil in Hc. }
  destruct (create_chunks_spec text chunk_size overlap Hne)
    as (E & _ & _ & Hall & _).
  rewrite E in Hc. apply list_elem_of_fmap in Hc as (t & -> & Ht).
  apply (proj1 (Forall_forall _ _) Hall) in Ht as [Ht Hsolid]. cbn.
  pose proof (join_solid _ Ht Hsolid) as Hj. split_and!.
  - by destruct Hj.
  - by apply strip_solid.
  - done.
  - destruct (tr_sentences t); [done|]. simpl. lia.
Qed.

Lemma elem_of_imap_chunk_entry doc_id filename (l : list chunk) e :
  e ∈ imap (chunk_entry doc_id filename) l →
  ∃ i c, l !! i = Some c ∧ e = chunk_entry doc_id filename i c.
Proof.
  intros He. apply list_elem_of_lookup in He as [i Hi].
  rewrite list_lookup_imap in Hi.
  destruct (l !! i) as [c|] eqn:E; [|done].
  injection Hi as <-. by exists i, c.
Qed.

Lemma add_document_fresh self file filename doc_id r self' :
  Dict.get (documents self) doc_id = None →
  add_document self file filename doc_id = (Ok r, self') →
  ∃ document_text,
    extract_text_from_pdf file = Ok document_text
    ∧ let doc_chunks :=
        create_chunks document_text default_chunk_size default_overlap in
      r = (doc_id, length doc_chunks)
      ∧ self' = Engine (documents self
                        ++ [(doc_id, document_entry filename document_text
                                       (length doc_chunks))])
                       (chunks self ++ imap (chunk_entry doc_id filename) doc_chunks)
                       (api_key self) (api_url self).
Proof.
  intros Hfresh Hadd.
  apply add_document_ok in Hadd as (document_text & Hex & Hadd).
  rewrite add_document_text_fresh in Hadd by done.
  injection Hadd as <- <-. by exists document_text.
Qed.

Lemma chunk_stored_add self file filename doc_id r self' :
  Dict.get (documents self) doc_id = None →
  add_document self file filename doc_id = (r, self') →
  Forall (chunk_stored self) (chunks self) →
  Forall (chunk_stored self') (chunks self').
Proof.
  intros Hfresh Hadd Hall. destruct r as [r|e].
  2:{ by apply add_document_raise in Hadd as [-> _]. }
  apply add_document_fresh in Hadd as (document_text & _ & _ & ->); [|done].
  cbn [chunks]. apply Forall_app. split.
  - eapply Forall_impl; [exact Hall|]. intros c (? & ? & ? & ? & ? & ? & d & Hd & ?).
    unfold chunk_stored. split_and!; try done. exists d. split; [|done].
    cbn [documents]. by apply dict_get_app_Some.
  - apply Forall_forall. intros e He.
    apply elem_of_imap_chunk_entry in He as (i & c & Hi & ->).
    pose proof (chunks_wellformed _ _ _ c (list_elem_of_lookup_2 _ _ _ Hi))
      as (Hne & Hstrip & Hlen & Hcount).
    unfold chunk_stored. cbn. split_and!; try done.
    eexists. split; [by apply dict_get_snoc_fresh|]. cbn. split; [done|].
    by eapply lookup_lt_Some.
Qed.

Lemma chunk_stored_reachable self :
  reachable self → Forall (chunk_stored self) (chunks self).
Proof.
  induction 1 as [env self Hinit|self file filename doc_id r self' _ IH Hfresh Hadd].
  - apply init_consistent in Hinit as [_ ->]. done.
  - by eapply chunk_stored_add.
Qed.

(** X13: in every engine reached from a fresh one by calls of
    [add_document], every stored chunk has the identifier of its
    document followed by its index, a text that is not empty and has no
    blank at either end, the lower-case text and the length of that
    text, and a stored document with its file name and more chunks than
    its index. *)
Theorem stored_chunks_wellformed self :
  reachable self → Forall (chunk_stored self) (chunks self).
Proof. apply chunk_stored_reachable. Qed.

Lemma stored_chunks_wellformed_witness :
  reachable sample_engine
  ∧ Forall (chunk_stored sample_engine) (chunks sample_engine).
Proof.
  split; [exact sample_engine_reachable|].
  exact (stored_chunks_wellformed sample_engine sample_engine_reachable).
Defined.

Lemma length_take_string n s : String.length (Str.take n s) ≤ n.
Proof.
  revert s. induction n as [|n IH]; intros [|c r]; simpl; try lia.
  specialize (IH r). lia.
Qed.

(** X14: a successful [add_document] with an unused identifier returns
    that identifier and the number of chunks, which is not zero; the
    document is then found under the identifier with the file name, that
    number of chunks, the length of the extracted text and a preview of
    at most 303 characters; and the statistics list it last and count one
    document and that many chunks more. *)
Theorem add_document_recorded self file filename doc_id r self' :
  Dict.get (documents self) doc_id = None →
  add_document self file filename doc_id = (Ok r, self') →
  ∃ document_text d,
    extract_text_from_pdf file = Ok document_text
    ∧ r = (doc_id, doc_chunks d)
    ∧ 0 < doc_chunks d
    ∧ Dict.get (documents self') doc_id = Some d
    ∧ doc_filename d = filename
    ∧ doc_total_chars d = String.length document_text
    ∧ String.length (doc_preview d) ≤ 303
    ∧ stats_documents (get_document_stats self')
      = stats_documents (get_document_stats self) ++ [d]
    ∧ total_documents (get_document_stats self')
      = total_documents (get_document_stats self) + 1
    ∧ total_chunks (get_document_stats self')
      = total_chunks (get_document_stats self) + doc_chunks d.
Proof.
  intros Hfresh Hadd.
  apply add_document_fresh in Hadd as (document_text & Hex & -> & ->); [|done].
  exists document_text,
    (document_entry filename document_text
       (length (create_chunks document_text default_chunk_size default_overlap))).
  split_and!; try done.
  - cbn. by eapply extracted_text_chunks.
  - by apply dict_get_snoc_fresh.
  - unfold document_entry. cbn [doc_preview].
    destruct (300 <? String.length document_text) eqn:E.
    + rewrite length_append. pose proof (length_take_string 300 document_text).
      change (String.length "...") with 3. lia.
    + apply Nat.ltb_ge in E. lia.
  - unfold get_document_stats, Dict.values. cbn.
    by rewrite map_app.
  - cbn. by rewrite length_app.
  - cbn. by rewrite length_app, length_imap.
Qed.

Lemma add_document_recorded_witness :
  Dict.get (documents fresh_engine) "doc-1" = None
  ∧ add_document fresh_engine sample_pdf "notes.pdf" "doc-1"
    = (Ok ("doc-1", 1), sample_engine)
  ∧ ∃ document_text d,
      extract_text_from_pdf sample_pdf = Ok document_text
      ∧ ("doc-1", 1) = ("doc-1", doc_chunks d)
      ∧ 0 < doc_chunks d
      ∧ Dict.get (documents sample_engine) "doc-1" = Some d.
Proof.
  assert (H1 : Dict.get (documents fresh_engine) "doc-1" = None) by reflexivity.
  assert (H2 : add_document fresh_engine sample_pdf "notes.pdf" "doc-1"
               = (Ok ("doc-1", 1), sample_engine)) by (vm_compute; reflexivity).
  split; [exact H1|]. split; [exact H2|].
  destruct (add_document_recorded fresh_engine sample_pdf "notes.pdf" "doc-1"
              ("doc-1", 1) sample_engine H1 H2)
    as (document_text & d & Hex & Hr & Hpos & Hget & _).
  exists document_text, d.
  split; [exact Hex|]. split; [exact Hr|]. split; [exact Hpos|exact Hget].
Defined.

(** ** From the upload to the search *)

Lemma word_page_readable page_text w :
  w ∈ Re.findall_words page_text → readable_page (PageText page_text) = true.
Proof.
  intros Hw. simpl. apply negb_true_iff, is_empty_false. intros He.
  rewrite <- findall_strip, He in Hw. by apply elem_of_nil in Hw.
Qed.

(** X15: every word of ASCII characters of a page whose text is read
    can be searched for.  When a page of the file has the word [w], made
    of characters below U+0080 (where [str.lower] changes a character
    by itself, whatever stands around it), [add_document] succeeds and
    stores a chunk of the document with [w] among the words of its text
    and [w] in lower case among the words of its lower-case text; any
    query whose lower-case text has [w] in lower case among its words
    then has a result, for every limit greater than zero. *)
Theorem uploaded_words_found self pages filename doc_id page_text w query
    max_results :
  PageText page_text ∈ pages →
  w ∈ Re.findall_words page_text →
  forallb (Char.between 0 127) (list_ascii_of_string w) = true →
  Str.lower w ∈ Re.findall_words (Str.lower query) →
  (0 < max_results)%Z →
  ∃ r self',
    add_document self (Pdf pages) filename doc_id = (Ok r, self')
    ∧ (∃ chunk, chunk ∈ chunks self'
                ∧ cd_doc_id chunk = doc_id
                ∧ cd_filename chunk = filename
                ∧ w ∈ Re.findall_words (cd_text chunk)
                ∧ Str.lower w ∈ Re.findall_words (cd_text_lower chunk))
    ∧ search_relevant_content self' query max_results ≠ [].
Proof.
  intros Hp Hw _ Hq Hm.
  assert (existsb readable_page pages = true) as Hread.
  { apply existsb_exists. exists (PageText page_text).
    split; [by apply list_elem_of_In|by eapply word_page_readable]. }
  destruct (extract_text_readable pages Hread) as (rest & Hex & Hrest).
  assert (w ∈ Re.findall_words (String "-" rest)) as Hwt.
  { rewrite <- Hrest, findall_strip. apply extract_pages_words.
    right. by exists page_text. }
  apply (chunk_words _ default_chunk_size default_overlap) in Hwt
    as (c & Hc & Hwc).
  apply list_elem_of_lookup in Hc as [i Hi].
  unfold add_document. rewrite Hex. unfold add_document_text. cbv zeta.
  eexists _, _. split; [reflexivity|]. cbn [chunks].
  set (entry := chunk_entry doc_id filename i c).
  assert (entry ∈ chunks self
                  ++ imap (chunk_entry doc_id filename)
                       (create_chunks (String "-" rest)
                          default_chunk_size default_overlap)) as Hentry.
  { apply elem_of_app. right. apply list_elem_of_lookup. exists i.
    by rewrite list_lookup_imap, Hi. }
  assert (Str.lower w ∈ Re.findall_words (cd_text_lower entry)) as Hlow.
  { cbn. rewrite findall_words_lower. apply list_elem_of_fmap. by exists w. }
  split.
  - by exists entry.
  - apply (search_finds _ _ _ entry); [done| |done].
    unfold common_tokens, query_tokens, word_set. intros He.
    apply (not_elem_of_empty (C:=gset string) (Str.lower w)). rewrite <- He.
    apply elem_of_intersection. by rewrite !elem_of_list_to_set.
Qed.

Lemma uploaded_words_found_witness :
  PageText "Newton first law." ∈ [PageError; PageText "Newton first law."]
  ∧ "Newton" ∈ Re.findall_words "Newton first law."
  ∧ forallb (Char.between 0 127) (list_ascii_of_string "Newton") = true
  ∧ Str.lower "Newton" ∈ Re.findall_words (Str.lower "What did NEWTON say?")
  ∧ (0 < 3)%Z
  ∧ ∃ r self',
      add_document sample_engine
        (Pdf [PageError; PageText "Newton first law."]) "law.pdf" "doc-2"
      = (Ok r, self')
      ∧ search_relevant_content self' "What did NEWTON say?" 3 ≠ [].
Proof.
  assert (H1 : PageText "Newton first law."
               ∈ [PageError; PageText "Newton first law."])
    by (apply list_elem_of_In; right; left; reflexivity).
  assert (H2 : "Newton" ∈ Re.findall_words "Newton first law.")
    by (apply list_elem_of_In; vm_compute; left; reflexivity).
  assert (H3 : forallb (Char.between 0 127) (list_ascii_of_string "Newton")
               = true) by reflexivity.
  assert (H4 : Str.lower "Newton"
               ∈ Re.findall_words (Str.lower "What did NEWTON say?"))
    by (apply list_elem_of_In; vm_compute; right; right; left; reflexivity).
  assert (H5 : (0 < 3)%Z) by lia.
  split; [exact H1|]. split; [exact H2|]. split; [exact H3|].
  split; [exact H4|]. split; [exact H5|].
  destruct (uploaded_words_found sample_engine
              [PageError; PageText "Newton first law."] "law.pdf" "doc-2"
              "Newton first law." "Newton" "What did NEWTON say?" 3
              H1 H2 H3 H4 H5) as (r & self' & Hadd & _ & Hsearch).
  exists r, self'. split; [exact Hadd|exact Hsearch].
Defined.

(** ** The upload loop *)

Lemma extract_text_cases file :
  if readable file
  then ∃ document_text, extract_text_from_pdf file = Ok document_text
  else ∃ message, extract_text_from_pdf file = Raise (Exception message).
Proof.
  destruct file as [pages|message]; [|by eexists].
  simpl readable. destruct (existsb readable_page pages) eqn:E.
  - destruct (extract_text_readable pages E) as (rest & -> & _). by eexists.
  - apply readable_pages_blank in E. unfold extract_text_from_pdf. cbv zeta.
    rewrite extract_pages_blank by done. by eexists.
Qed.

Lemma dict_get_snoc_other {V} (d : list (string * V)) key key' value :
  key ≠ key' → Dict.get d key' = None →
  Dict.get (d ++ [(key, value)]) key' = None.
Proof.
  intros Hne. induction d as [|[k v] d IH]; simpl.
  - intros _. by apply String.eqb_neq in Hne as ->.
  - destruct (String.eqb k key'); [done|]. apply IH.
Qed.

(** One upload: it is counted and stored, or reported and the engine
    left as it was. *)
Lemma process_upload_cases st u :
  Dict.get (documents (rag_engine st)) (up_uuid u) = None →
  if readable (up_file u)
  then ∃ d new_chunks,
         process_upload st u
         = Batch (successful_uploads st + 1) (error_messages st)
                 (Engine (documents (rag_engine st) ++ [(up_uuid u, d)])
                         (chunks (rag_engine st) ++ new_chunks)
                         (api_key (rag_engine st)) (api_url (rag_engine st)))
         ∧ (reachable (rag_engine st) →
            reachable (rag_engine (process_upload st u)))
  else ∃ message,
         process_upload st u
         = Batch (successful_uploads st) (error_messages st ++ [message])
                 (rag_engine st).
Proof.
  intros Hfresh. pose proof (extract_text_cases (up_file u)) as Hex.
  destruct (readable (up_file u)).
  - destruct Hex as [document_text Hex].
    assert (∃ r self',
      add_document (rag_engine st) (up_file u) (up_name u) (up_uuid u)
      = (Ok r, self')) as (r & self' & Hadd).
    { unfold add_document. rewrite Hex.
      destruct (add_document_text _ _ _ _) as [r self']. by eexists _, _. }
    pose proof Hadd as Hadd'.
    apply add_document_fresh in Hadd' as (? & _ & _ & Hself); [|done].
    eexists _, _. split.
    + unfold process_upload. rewrite Hadd. by rewrite Hself.
    + intros Hreach. unfold process_upload. rewrite Hadd. cbn.
      by eapply reachable_add.
  - destruct Hex as [message Hex]. eexists.
    unfold process_upload, add_document. by rewrite Hex.
Qed.

Lemma process_uploads_counts uploaded_files : ∀ st,
  NoDup (up_uuid <$> uploaded_files) →
  Forall (λ u, Dict.get (documents (rag_engine st)) (up_uuid u) = None)
         uploaded_files →
  let after := foldl process_upload st uploaded_files in
  let added :=
    length (filter (λ u, readable (up_file u) = true) uploaded_files) in
  successful_uploads after = successful_uploads st + added
  ∧ length (error_messages after) + added
    = length (error_messages st) + length uploaded_files
  ∧ length (documents (rag_engine after))
    = length (documents (rag_engine st)) + added
  ∧ chunks (rag_engine st) `prefix_of` chunks (rag_engine after)
  ∧ (reachable (rag_engine st) → reachable (rag_engine after)).
Proof.
  induction uploaded_files as [|u l IH]; intros st Hnodup Hfresh.
  { cbn. split_and!; try done; lia. }
  rewrite fmap_cons in Hnodup. apply NoDup_cons in Hnodup as [Hu Hnodup].
  apply Forall_cons in Hfresh as [Hfu Hfl].
  cbn [foldl]. rewrite filter_cons.
  pose proof (process_upload_cases st u Hfu) as Hcase.
  destruct (readable (up_file u)) eqn:Hr.
  - destruct Hcase as (d & new_chunks & Hstep & Hreach).
    destruct (IH (process_upload st u) Hnodup) as (H1 & H2 & H3 & H4 & H5).
    { rewrite Hstep. cbn. apply Forall_forall. intros u' Hu'.
      apply dict_get_snoc_other.
      - intros E. apply Hu. rewrite E. apply list_elem_of_fmap. by exists u'.
      - by apply (proj1 (Forall_forall _ _) Hfl). }
    rewrite decide_True by done. cbn [length].
    assert (successful_uploads (process_upload st u) = successful_uploads st + 1)
      as E1 by by rewrite Hstep.
    assert (error_messages (process_upload st u) = error_messages st)
      as E2 by by rewrite Hstep.
    assert (length (documents (rag_engine (process_upload st u)))
            = length (documents (rag_engine st)) + 1) as E3.
    { rewrite Hstep. cbn. rewrite length_app. cbn. lia. }
    assert (chunks (rag_engine st)
            `prefix_of` chunks (rag_engine (process_upload st u))) as E4.
    { rewrite Hstep. cbn. by apply prefix_app_r. }
    rewrite E2 in H2. split_and!; try lia.
    + by etrans.
    + intros Hst. by apply H5, Hreach.
  - destruct Hcase as (message & Hstep).
    destruct (IH (process_upload st u) Hnodup) as (H1 & H2 & H3 & H4 & H5).
    { by rewrite Hstep. }
    rewrite decide_False by done.
    assert (successful_uploads (process_upload st u) = successful_uploads st)
      as E1 by by rewrite Hstep.
    assert (length (error_messages (process_upload st u))
            = length (error_messages st) + 1) as E2.
    { rewrite Hstep. cbn. rewrite length_app. cbn. lia. }
    assert (rag_engine (process_upload st u) = rag_engine st)
      as E3 by by rewrite Hstep.
    rewrite E3 in H3, H4, H5. cbn [length]. split_and!; try done; lia.
Qed.

(** X16: the upload loop counts exactly the files from which text can be
    read and reports every other file once; a file that fails does not
    stop the files after it.  With identifiers that are not in use and
    differ from each other, the engine has one document more for every
    file counted, keeps the chunks it had in their places, and is again
    an engine reached by calls of [add_document]. *)
Theorem process_all_documents_counts self uploaded_files :
  NoDup (up_uuid <$> uploaded_files) →
  Forall (λ u, Dict.get (documents self) (up_uuid u) = None) uploaded_files →
  let after := process_all_documents self uploaded_files in
  successful_uploads after
  = length (filter (λ u, readable (up_file u) = true) uploaded_files)
  ∧ successful_uploads after + length (error_messages after)
    = length uploaded_files
  ∧ total_documents (get_document_stats (rag_engine after))
    = total_documents (get_document_stats self) + successful_uploads after
  ∧ chunks self `prefix_of` chunks (rag_engine after)
  ∧ (reachable self → reachable (rag_engine after)).
Proof.
  intros Hnodup Hfresh.
  destruct (process_uploads_counts uploaded_files (Batch 0 [] self) Hnodup Hfresh)
    as (H1 & H2 & H3 & H4 & H5).
  cbn in H1, H2, H3, H4, H5. unfold process_all_documents. cbn.
  split_and!; try done; lia.
Qed.

Lemma process_all_documents_counts_witness :
  NoDup (up_uuid <$> [Upload blank_pdf "blank.pdf" "doc-2";
                      Upload sample_pdf "more.pdf" "doc-3"])
  ∧ Forall (λ u, Dict.get (documents sample_engine) (up_uuid u) = None)
           [Upload blank_pdf "blank.pdf" "doc-2";
            Upload sample_pdf "more.pdf" "doc-3"]
  ∧ successful_uploads
      (process_all_documents sample_engine
         [Upload blank_pdf "blank.pdf" "doc-2";
          Upload sample_pdf "more.pdf" "doc-3"])
    = length (filter (λ u, readable (up_file u) = true)
                [Upload blank_pdf "blank.pdf" "doc-2";
                 Upload sample_pdf "more.pdf" "doc-3"]).
Proof.
  assert (H1 : NoDup (up_uuid <$> [Upload blank_pdf "blank.pdf" "doc-2";
                                   Upload sample_pdf "more.pdf" "doc-3"])).
  { apply NoDup_cons. split.
    - intros H%list_elem_of_singleton. discriminate H.
    - apply NoDup_singleton. }
  assert (H2 : Forall (λ u, Dict.get (documents sample_engine) (up_uuid u) = None)
                 [Upload blank_pdf "blank.pdf" "doc-2";
                  Upload sample_pdf "more.pdf" "doc-3"]).
  { repeat constructor. }
  split; [exact H1|]. split; [exact H2|].
  exact (proj1 (process_all_documents_counts sample_engine _ H1 H2)).
Defined.

(** ** Substrings *)

Lemma prefix_spec needle hay :
  String.prefix needle hay = true ↔ ∃ post, hay = needle +:+ post.
Proof.
  revert hay. induction needle as [|c r IH]; intros hay.
  - split; [intros _; by exists hay|by destruct hay].
  - destruct hay as [|d hay]; simpl.
    + split; [done|]. by intros [post H].
    + destruct (Ascii.ascii_dec c d) as [->|Hne].
      * rewrite IH. split; intros [post H]; exists post.
        -- by rewrite append_cons, H.
        -- rewrite append_cons in H. by injection H.
      * split; [done|]. intros [post H]. rewrite append_cons in H.
        by injection H as -> _.
Qed.

Lemma contains_spec hay needle :
  Str.contains hay needle = true ↔ ∃ pre post, hay = pre +:+ needle +:+ post.
Proof.
  split.
  - induction hay as [|c r IH].
    + change (Str.contains EmptyString needle)
        with (String.prefix needle EmptyString || false).
      rewrite orb_false_r. intros [post ->]%prefix_spec.
      by exists EmptyString, post.
    + change (Str.contains (String c r) needle)
        with (String.prefix needle (String c r) || Str.contains r needle).
      intros [[post ->]%prefix_spec|H]%orb_true_iff.
      * by exists EmptyString, post.
      * destruct (IH H) as (pre & post & ->). by exists (String c pre), post.
  - intros (pre & post & ->). apply contains_append_r, contains_prefix.
Qed.

Lemma contains_refl s : Str.contains s s = true.
Proof. apply contains_spec. exists EmptyString, EmptyString. by rewrite append_empty_r. Qed.

Lemma contains_trans a b c :
  Str.contains a b = true → Str.contains b c = true → Str.contains a c = true.
Proof.
  rewrite !contains_spec. intros (p1 & q1 & ->) (p2 & q2 & ->).
  exists (p1 +:+ p2), (q2 +:+ q1). by rewrite !append_assoc.
Qed.

Lemma contains_append_l hay needle post :
  Str.contains hay needle = true → Str.contains (hay +:+ post) needle = true.
Proof.
  rewrite !contains_spec. intros (p & q & ->).
  exists p, (q +:+ post). by rewrite !append_assoc.
Qed.

Lemma contains_join_elem sep l s :
  s ∈ l → Str.contains (Str.join sep l) s = true.
Proof.
  induction l as [|x l IH]; [by intros ?%elem_of_nil|].
  intros Hs. destruct l as [|y l].
  - apply list_elem_of_singleton in Hs as ->. apply contains_refl.
  - rewrite join_cons by done. apply elem_of_cons in Hs as [->|Hs].
    + apply contains_prefix.
    + apply contains_append_r, contains_append_r. by apply IH.
Qed.

(** ** Answers with context *)

Lemma search_result_words self query max_results r :
  r ∈ search_relevant_content self query max_results →
  matching_words r ≠ []
  ∧ ∃ chunk, chunk ∈ chunks self ∧ sc_filename r = cd_filename chunk.
Proof.
  intros Hr. apply search_elem in Hr as (_ & chunk & Hc & Hs).
  apply score_chunk_spec in Hs as (Hne & _ & _ & Hf & _ & Hm). split.
  - rewrite Hm. intros He. apply elements_empty_inv in He.
    by apply leibniz_equiv in He.
  - by exists chunk.
Qed.

Lemma build_prompt_contains context question style_instruction :
  Str.contains (build_prompt context question style_instruction) context = true
  ∧ Str.contains (build_prompt context question style_instruction) question = true
  ∧ Str.contains (build_prompt context question style_instruction)
      style_instruction = true.
Proof.
  unfold build_prompt, lines. split_and!.
  - apply contains_join_elem.
    do 3 apply list_elem_of_further. apply list_elem_of_here.
  - eapply contains_trans.
    + apply (contains_join_elem _ _ ("STUDENT'S QUESTION: " +:+ question)).
      do 5 apply list_elem_of_further. apply list_elem_of_here.
    + apply contains_append_r, contains_refl.
  - eapply contains_trans.
    + apply (contains_join_elem _ _ ("EXPLANATION APPROACH: " +:+ style_instruction)).
      do 7 apply list_elem_of_further. apply list_elem_of_here.
    + apply contains_append_r, contains_refl.
Qed.

Lemma context_part_contains i c :
  Str.contains (context_part i c) (sc_text c) = true
  ∧ Str.contains (context_part i c) (sc_filename c) = true.
Proof.
  unfold context_part. split.
  - do 7 apply contains_append_r. apply contains_refl.
  - do 4 apply contains_append_r. apply contains_prefix.
Qed.

(** X17: when the search for the question has results, [generate_answer]
    calls the service once.  The prompt holds the question, the style
    chosen by the level, and the text and file name of every result.  An
    answer of the service is returned with one source for each of the at
    most three results, each with one to five matching terms; an error
    of the service is raised again as "Answer generation failed". *)
Theorem generate_answer_with_context self question complexity_level :
  search_relevant_content self question 3 ≠ [] →
  let found := search_relevant_content self question 3 in
  ∃ prompt,
    (∀ service,
       run_io service (generate_answer self question complexity_level)
       = (match service prompt with
          | Ok ai_response =>
              Ok (Answer ai_response (map source_of found) (length found))
          | Raise (Exception message) =>
              Raise (Exception ("Answer generation failed: " +:+ message))
          end,
          [prompt]))
    ∧ Str.contains prompt question = true
    ∧ Str.contains prompt
        (if Str.contains (Str.lower complexity_level) "advanced"
         then advanced_style else beginner_style) = true
    ∧ Forall (λ c, Str.contains prompt (sc_text c) = true
                   ∧ Str.contains prompt (sc_filename c) = true) found
    ∧ 0 < length found ≤ 3
    ∧ Forall (λ s, 0 < length (matching_terms s) ≤ 5) (map source_of found).
Proof.
  intros Hne found. unfold generate_answer. cbv zeta. fold found.
  set (context := Str.join (Str.nl +:+ Str.nl) (imap context_part found)).
  set (style := if Str.contains (Str.lower complexity_level) "advanced"
                then advanced_style else beginner_style).
  exists (build_prompt context question style).
  destruct (build_prompt_contains context question style) as (Hc & Hq & Hs).
  refine (conj _ (conj Hq (conj Hs (conj _ (conj _ _))))).
  - intros service. subst context style found.
    destruct (search_relevant_content self question 3) as [|c l]; [done|].
    cbn [run_io]. by destruct (service _) as [ai_response|[message]].
  - apply Forall_forall. intros c Hin.
    apply list_elem_of_lookup in Hin as [i Hi].
    assert (Str.contains context (context_part i c) = true) as Hpart.
    { apply contains_join_elem, list_elem_of_lookup. exists i.
      by rewrite list_lookup_imap, Hi. }
    destruct (context_part_contains i c) as [Ht Hf].
    split; (eapply contains_trans; [exact Hc|]);
      (eapply contains_trans; [exact Hpart|]); done.
  - subst found. split.
    + destruct (search_relevant_content self question 3); [done|]. simpl. lia.
    + rewrite search_ranked, slice_to_nonneg by lia.
      rewrite length_take. change (Z.to_nat 3) with 3. lia.
  - apply Forall_forall. intros s Hs'.
    apply list_elem_of_In, in_map_iff in Hs' as (c & <- & Hin).
    apply list_elem_of_In in Hin.
    apply search_result_words in Hin as [Hw _].
    unfold source_of. cbn [matching_terms]. rewrite length_take.
    destruct (matching_words c); [done|]. cbn [length]. lia.
Qed.

Lemma generate_answer_with_context_witness :
  search_relevant_content physics_engine "physics concepts" 3 ≠ []
  ∧ ∃ prompt,
      (∀ service,
         (run_io service
            (generate_answer physics_engine "physics concepts" "Advanced")).2
         = [prompt])
      ∧ Str.contains prompt "physics concepts" = true.
Proof.
  assert (H : search_relevant_content physics_engine "physics concepts" 3 ≠ []).
  { intros E%(f_equal length). by vm_compute in E. }
  split; [exact H|].
  destruct (generate_answer_with_context physics_engine "physics concepts"
              "Advanced" H) as (prompt & Hrun & Hq & _).
  exists prompt. split; [|exact Hq].
  intros service. by rewrite Hrun.
Defined.

(** ** Quizzes *)

Lemma size_list_to_set_le (l : list string) :
  size (list_to_set (C:=gset string) l) ≤ length l.
Proof.
  induction l as [|x l IH]; [done|]. simpl.
  rewrite size_union_alt, size_singleton.
  pose proof (subseteq_size (list_to_set l ∖ {[x]}) (list_to_set (C:=gset string) l)
                ltac:(by apply subseteq_difference_l)).
  lia.
Qed.

Lemma quiz_prompt_contains question_count quiz_content :
  Str.contains (quiz_prompt question_count quiz_content)
    (int_str question_count) = true
  ∧ Str.contains (quiz_prompt question_count quiz_content) quiz_content = true.
Proof.
  unfold quiz_prompt, lines. split.
  - rewrite join_cons by done. apply contains_append_l.
    apply contains_append_r, contains_prefix.
  - apply contains_join_elem.
    do 3 apply list_elem_of_further. apply list_elem_of_here.
Qed.

(** X18: [generate_study_quiz] searches for the topic, or for the general
    query when the topic is missing or empty, and never raises.  Without
    results it returns the error "Insufficient content" and calls
    nothing.  With results it calls the service once, with a prompt that
    holds the number of questions and the texts of the first three
    results; an answer comes back with the file names of those results,
    each once, and an error of the service comes back as the error
    "Quiz generation failed". *)
Theorem generate_study_quiz_result self topic question_count service :
  let query :=
    match topic with
    | Some t => if Str.is_empty t then general_quiz_query else t
    | None => general_quiz_query
    end in
  let found := search_relevant_content self query 5 in
  let run := run_io service (generate_study_quiz self topic question_count) in
  match found with
  | [] =>
      run = (QuizError "Insufficient content available for quiz generation. Please upload more study materials.", [])
  | _ =>
      ∃ prompt,
        run.2 = [prompt]
        ∧ Str.contains prompt (int_str question_count) = true
        ∧ Forall (λ c, Str.contains prompt (sc_text c) = true) (take 3 found)
        ∧ match service prompt with
          | Ok quiz_response =>
              ∃ files,
                run.1 = Quiz quiz_response files question_count
                ∧ NoDup files
                ∧ 0 < length files ≤ 3
                ∧ ∀ f, f ∈ files
                       ↔ ∃ c, c ∈ take 3 found ∧ sc_filename c = f
          | Raise (Exception message) =>
              run.1 = QuizError ("Quiz generation failed: " +:+ message)
          end
  end.
Proof.
  intros query found run.
  assert (match topic with
          | Some topic =>
              if Str.is_empty topic
              then search_relevant_content self general_quiz_query 5
              else search_relevant_content self topic 5
          | None => search_relevant_content self general_quiz_query 5
          end = found) as Hfound.
  { subst found query. destruct topic as [t|]; [|done].
    by destruct (Str.is_empty t). }
  subst run. unfold generate_study_quiz. cbv zeta. rewrite Hfound.
  clearbody found. clear Hfound. destruct found as [|c l]; [done|].
  set (found := c :: l).
  set (quiz_content := Str.join (Str.nl +:+ Str.nl) (sc_text <$> take 3 found)).
  exists (quiz_prompt question_count quiz_content).
  destruct (quiz_prompt_contains question_count quiz_content) as [Hn Hc].
  cbn [run_io].
  refine (conj _ (conj Hn (conj _ _))).
  - by destruct (service _) as [quiz_response|[message]].
  - apply Forall_forall. intros x Hx. eapply contains_trans; [exact Hc|].
    apply contains_join_elem, list_elem_of_fmap. by exists x.
  - destruct (service _) as [quiz_response|[message]]; [|done].
    eexists. split; [reflexivity|]. split; [apply NoDup_elements|]. split.
    + change (length (elements ?X)) with (size X). split.
      * apply Nat.neq_0_lt_0. intros H0. apply size_empty_iff in H0.
        apply (not_elem_of_empty (C:=gset string) (sc_filename c)).
        rewrite <- H0. apply elem_of_list_to_set. subst found.
        apply list_elem_of_here.
      * etrans; [apply size_list_to_set_le|].
        rewrite length_fmap, length_take. lia.
    + intros f. rewrite elem_of_elements, elem_of_list_to_set, list_elem_of_fmap.
      split; intros (x & Hx & Hf); exists x; done.
Qed.

(** ** A new engine *)

(** X19: [RAGEngine()] raises exactly when the key is missing from the
    environment or empty.  The engine it returns otherwise keeps the key,
    counts no document and no chunk, finds nothing, answers every
    question with the fixed answer and every quiz request with the error
    "Insufficient content", both without a call of the service. *)
Theorem RAGEngine_init_fresh env :
  match RAGEngine_init env with
  | Ok self =>
      env = Some (api_key self)
      ∧ api_key self ≠ EmptyString
      ∧ get_document_stats self = DocumentStats 0 0 []
      ∧ (∀ query max_results,
           search_relevant_content self query max_results = [])
      ∧ (∀ question complexity_level,
           generate_answer self question complexity_level
           = Ret (Ok no_information_answer))
      ∧ (∀ topic question_count,
           generate_study_quiz self topic question_count
           = Ret (QuizError "Insufficient content available for quiz generation. Please upload more study materials."))
  | Raise _ => env = None ∨ env = Some EmptyString
  end.
Proof.
  unfold RAGEngine_init. destruct env as [key|]; [|by left].
  destruct key as [|c key]; [by right|].
  cbn [Str.is_empty]. split_and!; try done.
  intros [topic|] question_count; [|done].
  unfold generate_study_quiz. by destruct (Str.is_empty topic).
Qed.

(** ** Where the results come from *)

Lemma dict_get_values {V} (d : list (string * V)) key v :
  Dict.get d key = Some v → v ∈ Dict.values d.
Proof.
  induction d as [|[k x] d IH]; [done|]. simpl.
  destruct (String.eqb k key).
  - intros [= ->]. apply elem_of_cons. by left.
  - intros H. apply elem_of_cons. right. by apply IH.
Qed.

Lemma search_result_stored self query max_results r :
  reachable self →
  r ∈ search_relevant_content self query max_results →
  sc_text r ≠ EmptyString
  ∧ ∃ d, d ∈ stats_documents (get_document_stats self)
         ∧ doc_filename d = sc_filename r
         ∧ sc_chunk_index r < doc_chunks d.
Proof.
  intros Hreach Hr. apply search_elem in Hr as (_ & chunk & Hc & Hs).
  apply score_chunk_spec in Hs as (_ & _ & -> & -> & -> & _).
  pose proof (chunk_stored_reachable self Hreach) as Hall.
  apply (proj1 (Forall_forall _ _) Hall) in Hc
    as (_ & Hne & _ & _ & _ & _ & d & Hd & Hf & Hi).
  split; [done|]. exists d. split; [|done].
  by eapply dict_get_values.
Qed.

(** X20: on an engine reached by calls of [add_document], every result of
    a search has a text that is not empty, the file name of a document
    that the statistics list, and a chunk index below the number of
    chunks of that document. *)
Theorem search_results_stored self query max_results :
  reachable self →
  Forall (λ r,
      sc_text r ≠ EmptyString
      ∧ ∃ d, d ∈ stats_documents (get_document_stats self)
             ∧ doc_filename d = sc_filename r
             ∧ sc_chunk_index r < doc_chunks d)
    (search_relevant_content self query max_results).
Proof.
  intros Hreach. apply Forall_forall. intros r Hr.
  by eapply search_result_stored.
Qed.

Lemma search_results_stored_witness :
  reachable sample_engine
  ∧ Forall (λ r,
        sc_text r ≠ EmptyString
        ∧ ∃ d, d ∈ stats_documents (get_document_stats sample_engine)
               ∧ doc_filename d = sc_filename r
               ∧ sc_chunk_index r < doc_chunks d)
      (search_relevant_content sample_engine "mammals" 3).
Proof.
  split; [exact sample_engine_reachable|].
  exact (search_results_stored sample_engine "mammals" 3 sample_engine_reachable).
Defined.

(** X21: on an engine reached by calls of [add_document], an answer names
    only uploaded files as its sources, whatever the service returns:
    every source has the file name of a document that the statistics
    list. *)
Theorem answer_sources_uploaded self question complexity_level service a :
  reachable self →
  (run_io service (generate_answer self question complexity_level)).1 = Ok a →
  Forall (λ s, ∃ d, d ∈ stats_documents (get_document_stats self)
                    ∧ doc_filename d = src_filename s)
         (sources a).
Proof.
  intros Hreach. unfold generate_answer. cbv zeta.
  set (found := search_relevant_content self question 3).
  assert (Forall (λ s, ∃ d, d ∈ stats_documents (get_document_stats self)
                            ∧ doc_filename d = src_filename s)
                 (map source_of found)) as Hall.
  { apply Forall_forall. intros s Hs.
    apply list_elem_of_In, in_map_iff in Hs as (r & <- & Hr).
    apply list_elem_of_In in Hr.
    apply (search_result_stored self question 3 r Hreach) in Hr
      as (_ & d & Hd & Hf & _).
    by exists d. }
  clearbody found. destruct found as [|c l].
  { intros [= <-]. done. }
  cbn [run_io]. destruct (service _) as [ai_response|[message]]; [|done].
  cbn [fst]. intros [= <-]. exact Hall.
Qed.

Lemma answer_sources_uploaded_witness :
  reachable sample_engine
  ∧ (run_io (λ _, Ok "Cats and dogs.")
       (generate_answer sample_engine "mammals" "beginner")).1
    = Ok (Answer "Cats and dogs."
            (map source_of (search_relevant_content sample_engine "mammals" 3))
            1)
  ∧ Forall (λ s, ∃ d, d ∈ stats_documents (get_document_stats sample_engine)
                      ∧ doc_filename d = src_filename s)
      (map source_of (search_relevant_content sample_engine "mammals" 3)).
Proof.
  assert (H : (run_io (λ _, Ok "Cats and dogs.")
                 (generate_answer sample_engine "mammals" "beginner")).1
              = Ok (Answer "Cats and dogs."
                      (map source_of
                         (search_relevant_content sample_engine "mammals" 3))
                      1))
    by (vm_compute; reflexivity).
  split; [exact sample_engine_reachable|]. split; [exact H|].
  exact (answer_sources_uploaded sample_engine "mammals" "beginner"
           (λ _, Ok "Cats and dogs.") _ sample_engine_reachable H).
Defined.

(** ** Chunk sizes that fit no two sentences *)

Lemma chunk_loop_tiny chunk_size l s :
  (chunk_size ≤ 1)%Z → Forall solid (l ++ [s]) →
  chunk_loop chunk_size (l ++ [s])
  = Chunker ((λ s, Chunk s (String.length s) 1) <$> l) s [s].
Proof.
  intros Hsize. revert s. induction l as [|x l IH] using rev_ind; intros s Hall.
  - unfold chunk_loop, chunk_step, overflows. simpl. by rewrite andb_false_r.
  - apply Forall_app in Hall as [Hl Hs]. rewrite chunk_loop_snoc, IH by done.
    apply Forall_app in Hl as [_ Hx]. apply Forall_inv in Hx.
    unfold chunk_step, overflows, close_chunk.
    cbn [current_chunk sentence_buffer chunks_out length].
    destruct Hx as (Hne & Hlx & Hrx).
    assert (0 < String.length x) by (destruct x; [done|simpl; lia]).
    rewrite (proj2 (Z.ltb_lt _ _)) by lia.
    apply is_empty_false in Hne. rewrite Hne. cbn [andb negb Nat.ltb Nat.leb].
    unfold Str.strip. rewrite Hlx, Hrx. by rewrite fmap_app.
Qed.

(** X22: with a chunk size of at most 1 every sentence of the cleaned text
    is a chunk of its own, and nothing is carried over from one chunk to
    the next. *)
Theorem create_chunks_tiny text chunk_size overlap :
  preprocess_text text ≠ EmptyString →
  (chunk_size ≤ 1)%Z →
  create_chunks text chunk_size overlap
  = (λ s, Chunk s (String.length s) 1)
    <$> Re.split_sentences (preprocess_text text).
Proof.
  intros Hne Hsize. unfold create_chunks. cbv zeta.
  pose proof (sentences_solid text Hne) as Hsolid.
  pose proof (split_sentences_nonempty (preprocess_text text)) as Hnil.
  destruct (Re.split_sentences (preprocess_text text)) as [|x l _] using rev_ind;
    [done|].
  rewrite chunk_loop_tiny by done.
  apply Forall_app in Hsolid as [_ Hx]. apply Forall_inv in Hx.
  destruct Hx as (Hx & Hlx & Hrx).
  unfold chunker_finish, close_chunk.
  cbn [current_chunk sentence_buffer chunks_out length].
  unfold Str.strip. rewrite Hlx, Hrx. apply is_empty_false in Hx. rewrite Hx.
  by rewrite fmap_app.
Qed.

Lemma create_chunks_tiny_witness :
  preprocess_text overlap_text ≠ EmptyString
  ∧ (0 ≤ 1)%Z
  ∧ create_chunks overlap_text 0 default_overlap
    = (λ s, Chunk s (String.length s) 1)
      <$> Re.split_sentences (preprocess_text overlap_text).
Proof.
  assert (H1 : preprocess_text overlap_text ≠ EmptyString) by (by vm_compute).
  assert (H2 : (0 ≤ 1)%Z) by lia.
  split; [exact H1|]. split; [exact H2|].
  exact (create_chunks_tiny overlap_text 0 default_overlap H1 H2).
Defined.
